(** * clang-indexer: the per-file fact extractor and the merge pipeline

    A shallow embedding of [clang-indexer/main.cc].  The index storage
    engine ([libindexdb/IndexDb.h]) is only included by that file; its
    operations are modelled here from the specification.  The libclang
    frontend and the JSON reader are external collaborators and are
    represented by the data they hand to the program. *)

From stdpp Require Import gmap gmultiset strings list fin_maps.


(** ** Fallible operations *)

Inductive Error : Type :=
  | StateError       (* mutation attempted on a read-only Index *)
  | SchemaMismatch   (* add / merge against an incompatible schema *)
  | NameRegistered   (* addStringTable / addTable on a registered name *)
  | NoSuchTable      (* a table handle that was never registered *)
  | BadID            (* a foreign key outside its string table *)
  | JsonError.       (* a JSON value used at the wrong type *)

Inductive Result (A : Type) : Type :=
  | Ok (a : A)
  | Err (e : Error).
Arguments Ok {A} a.
Arguments Err {A} e.

#[global] Instance Result_ret : MRet Result := λ A a, Ok a.

#[global] Instance Result_bind : MBind Result := λ A B k r,
  match r with
  | Ok a => k a
  | Err e => Err e
  end.

Fixpoint mapR {A B} (f : A → Result B) (l : list A) : Result (list B) :=
  match l with
  | [] => Ok []
  | a :: l' => b ← f a; bs ← mapR f l'; Ok (b :: bs)
  end.

(** ** The index database (libindexdb) *)

Module indexdb.

(** Modelled from the spec: [indexdb::ID], the unsigned integer that a
    row cell holds (the header declaring it is not part of the sources). *)
Abbreviation ID := N.

(** Modelled from the spec: [indexdb::Row], a fixed-width sequence of
    unsigned integers. *)
Abbreviation Row := (list N).

(** Modelled from the spec: [indexdb::Table], an ordered sequence of rows
    with, per column, either the name of the string table the column
    refers to or the empty name for a raw integer column. *)
Record Table : Type := mkTable {
  columns : list string;
  rows : list Row
}.

(** Modelled from the spec: [indexdb::Index], a named collection of
    string tables (each the ordered list of its strings, the ID of a
    string being its position) and tables, with a read-only flag. *)
Record Index : Type := mkIndex {
  stringTables : gmap string (list string);
  tables : gmap string Table;
  readonly : bool
}.

(** Modelled from the spec: the constructor [indexdb::Index()], an index
    with nothing registered. *)
Definition emptyIndex : Index :=
  {| stringTables := ∅; tables := ∅; readonly := false |}.

(** Modelled from the spec: [Index::addStringTable], registers an empty
    string table and fails if the name is already registered. *)
Definition addStringTable (name : string) (idx : Index) : Result Index :=
  if readonly idx then Err StateError
  else match stringTables idx !! name with
       | Some _ => Err NameRegistered
       | None =>
           Ok {| stringTables := <[name := []]> (stringTables idx);
                 tables := tables idx;
                 readonly := readonly idx |}
       end.

(** Modelled from the spec: [Index::addTable], registers an empty table
    with the given column schema and fails if the name is registered. *)
Definition addTable (name : string) (cols : list string) (idx : Index)
  : Result Index :=
  if readonly idx then Err StateError
  else match tables idx !! name with
       | Some _ => Err NameRegistered
       | None =>
           Ok {| stringTables := stringTables idx;
                 tables := <[name := mkTable cols []]> (tables idx);
                 readonly := readonly idx |}
       end.

(** Modelled from the spec: the reverse lookup of a string table, the
    position of the first occurrence of [s] among the strings. *)
Definition findString (s : string) (strs : list string) : option nat :=
  fst <$> list_find (λ x, x = s) strs.

(** Modelled from the spec: insert-or-get on the ordered strings of one
    string table (the existing ID if present, else a new dense ID). *)
Definition internString (s : string) (strs : list string)
  : ID * list string :=
  match findString s strs with
  | Some i => (N.of_nat i, strs)
  | None => (N.of_nat (length strs), strs ++ [s])
  end.

(** Modelled from the spec: [StringTable::insert] on the string table
    registered under [name]: the existing ID if the string is present,
    else a new dense ID; a state error on a read-only index. *)
Definition insert (name : string) (s : string) (idx : Index)
  : Result (ID * Index) :=
  if readonly idx then Err StateError
  else match stringTables idx !! name with
       | None => Err NoSuchTable
       | Some strs =>
           let '(id, strs') := internString s strs in
           Ok (id, {| stringTables := <[name := strs']> (stringTables idx);
                      tables := tables idx;
                      readonly := readonly idx |})
       end.

(** Modelled from the spec: [Table::add] on the table registered under
    [name]: appends the row, fails if its width is not the schema's. *)
Definition add (name : string) (row : Row) (idx : Index) : Result Index :=
  if readonly idx then Err StateError
  else match tables idx !! name with
       | None => Err NoSuchTable
       | Some t =>
           if decide (length row = length (columns t)) then
             Ok {| stringTables := stringTables idx;
                   tables := <[name := mkTable (columns t) (rows t ++ [row])]>
                               (tables idx);
                   readonly := readonly idx |}
           else Err SchemaMismatch
       end.

(** Modelled from the spec: [Index::setReadOnly], the irreversible
    transition to read-only (calling it twice is harmless). *)
Definition setReadOnly (idx : Index) : Index :=
  {| stringTables := stringTables idx;
     tables := tables idx;
     readonly := true |}.

(** *** Merge *)

(** Modelled from the spec: step 1 of the merge on one string table.  The
    source strings are inserted in ID order; the result is the grown
    destination and the translation vector whose position [i] holds the
    destination ID of source ID [i]. *)
Fixpoint internAll (dstStrs srcStrs : list string)
  : list string * list ID :=
  match srcStrs with
  | [] => (dstStrs, [])
  | s :: rest =>
      let '(id, dstStrs1) := internString s dstStrs in
      let '(dstStrs2, ids) := internAll dstStrs1 rest in
      (dstStrs2, id :: ids)
  end.

(** Modelled from the spec: the translation map of the string table
    [name], defined when the name is present in both indexes. *)
Definition translation (dst src : Index) (name : string)
  : option (list ID) :=
  match stringTables dst !! name, stringTables src !! name with
  | Some ds, Some ss => Some (snd (internAll ds ss))
  | _, _ => None
  end.

(** Modelled from the spec: the string tables of the destination after
    step 1, each grown by the strings of the same-named source table. *)
Definition mergeStrings (dst src : Index) : gmap string (list string) :=
  map_imap (λ name ds,
              Some match stringTables src !! name with
                   | Some ss => fst (internAll ds ss)
                   | None => ds
                   end)
           (stringTables dst).

(** Modelled from the spec: one cell of a translated row.  A raw integer
    column passes through, a foreign key is rewritten through the
    translation map of its column's string table. *)
Definition translateCell (tr : string → option (list ID))
    (col : string) (v : ID) : Result ID :=
  if decide (col = "") then Ok v
  else match tr col with
       | None => Err SchemaMismatch
       | Some ids =>
           match ids !! N.to_nat v with
           | Some v' => Ok v'
           | None => Err BadID
           end
       end.

(** Modelled from the spec: a row translated cell by cell; its width
    must be that of the schema. *)
Fixpoint translateRow (tr : string → option (list ID))
    (cols : list string) (row : Row) : Result Row :=
  match cols, row with
  | [], [] => Ok []
  | c :: cols', v :: row' =>
      v' ← translateCell tr c v;
      r' ← translateRow tr cols' row';
      Ok (v' :: r')
  | _, _ => Err SchemaMismatch
  end.

(** Modelled from the spec: step 2 of the merge on one destination table.
    The rows of the same-named source table, translated, are appended in
    their original order. *)
Definition mergeTable (tr : string → option (list ID))
    (src : Index) (name : string) (dt : Table) : Result Table :=
  match tables src !! name with
  | None => Ok dt
  | Some st =>
      if decide (columns dt = columns st) then
        rs ← mapR (translateRow tr (columns st)) (rows st);
        Ok (mkTable (columns dt) (rows dt ++ rs))
      else Err SchemaMismatch
  end.

(** Modelled from the spec: step 2 over every table of the destination. *)
Definition mergeTables (dst src : Index)
  : Result (list (string * Table)) :=
  mapR (λ '(name, dt),
          t ← mergeTable (translation dst src) src name dt;
          Ok (name, t))
       (map_to_list (tables dst)).

(** Modelled from the spec: the schema of an index, that is the names of
    its registered string tables and, per registered table, its column
    schema. *)
Definition schema (idx : Index) : gset string * gmap string (list string) :=
  (dom (stringTables idx), columns <$> tables idx).

(** Modelled from the spec: [Index::merge], the merge engine.  Two
    indexes may only be merged if their schemas are structurally
    identical: a merge against another schema fails fast with
    [SchemaMismatch].  The string tables and the tables are then matched
    by name, step 1 before step 2. *)
Definition merge (dst src : Index) : Result Index :=
  if readonly dst then Err StateError
  else if decide (schema dst = schema src) then
    ts ← mergeTables dst src;
    Ok {| stringTables := mergeStrings dst src;
          tables := list_to_map ts;
          readonly := readonly dst |}
  else Err SchemaMismatch.

(** *** Logical content *)

(** A resolved cell: the string behind a foreign key, or the integer. *)
Inductive Cell : Type :=
  | CStr (s : string)
  | CRaw (n : N).

Definition resolveCell (idx : Index) (col : string) (v : ID)
  : option Cell :=
  if decide (col = "") then Some (CRaw v)
  else strs ← stringTables idx !! col;
       s ← strs !! N.to_nat v;
       Some (CStr s).

Fixpoint resolveRow (idx : Index) (cols : list string) (row : Row)
  : option (list Cell) :=
  match cols, row with
  | [], [] => Some []
  | c :: cols', v :: row' =>
      x ← resolveCell idx c v;
      xs ← resolveRow idx cols' row';
      Some (x :: xs)
  | _, _ => None
  end.

(** The rows of the table [name], each joined with its string tables. *)
Definition resolvedRows (idx : Index) (name : string)
  : list (list Cell) :=
  match tables idx !! name with
  | None => []
  | Some t => omap (resolveRow idx (columns t)) (rows t)
  end.

(** [Fact idx name tup]: the tuple belongs to the logical content of the
    table [name]. *)
Definition Fact (idx : Index) (name : string) (tup : list Cell) : Prop :=
  tup ∈ resolvedRows idx name.

(** Two indexes with the same logical content. *)
Definition sameFacts (a b : Index) : Prop :=
  ∀ name tup, Fact a name tup ↔ Fact b name tup.

(** Merging a sequence of sources, one by one, into a destination. *)
Fixpoint mergeAll (dst : Index) (srcs : list Index) : Result Index :=
  match srcs with
  | [] => Ok dst
  | src :: rest => d ← merge dst src; mergeAll d rest
  end.

(** [extends a b]: every string table of [a] is in [b], grown at its end
    only, so that the IDs of [a] keep their strings in [b]. *)
Definition extends (a b : gmap string (list string)) : Prop :=
  ∀ name strs, a !! name = Some strs →
    ∃ strs', b !! name = Some strs' ∧ strs `prefix_of` strs'.

(** Every row of every table has the width of its schema and foreign keys
    that name a string of their column's string table. *)
Definition rowsResolve (idx : Index) : Prop :=
  map_Forall (λ _ t,
                Forall (λ row, is_Some (resolveRow idx (columns t) row))
                       (rows t))
             (tables idx).

(** Every foreign-key column refers to a registered string table. *)
Definition closedSchema (idx : Index) : Prop :=
  map_Forall (λ _ t,
                Forall (λ col, col ≠ "" → is_Some (stringTables idx !! col))
                       (columns t))
             (tables idx).

(** An index with no row in any table. *)
Definition noRows (idx : Index) : Prop :=
  map_Forall (λ _ t, rows t = []) (tables idx).

(** Two sequences of indexes with the same multiset of logical contents. *)
Definition sameContents (l1 l2 : list Index) : Prop :=
  ∃ l2', l2' ≡ₚ l2 ∧ Forall2 sameFacts l1 l2'.

End indexdb.

(** ** The libclang frontend, as seen by the indexer *)

Module clang.

(** What the accessors of one cursor return: [clang_getCursorUSR],
    [clang_getCursorKindSpelling], and the file name, line and column of
    [clang_getInstantiationLocation].  The two C strings that the
    indexer passes through [nullToBlank] may be null. *)
Record CursorData : Type := mkCursorData {
  cursorUSR : string;
  cursorKindSpelling : option string;
  cursorFileName : option string;
  cursorLine : N;
  cursorColumn : N
}.

(** A cursor with the cursor it refers to ([clang_getCursorReferenced],
    [None] for the null cursor) and its children. *)
#[local] Unset Elimination Schemes.
Inductive CXCursor : Type :=
  | mkCursor (data : CursorData) (referenced : option CursorData)
             (children : list CXCursor).
#[local] Set Elimination Schemes.

Definition cursorData (c : CXCursor) : CursorData :=
  match c with mkCursor d _ _ => d end.

Definition clang_getCursorReferenced (c : CXCursor) : option CursorData :=
  match c with mkCursor _ r _ => r end.

Definition cursorChildren (c : CXCursor) : list CXCursor :=
  match c with mkCursor _ _ cs => cs end.

Inductive CXChildVisitResult : Type :=
  | CXChildVisit_Break
  | CXChildVisit_Continue
  | CXChildVisit_Recurse.

(** [clang_visitChildren]: the visitor is called on each child of
    [parent] in order; [Recurse] descends into the child before its next
    sibling, [Continue] skips the child's subtree, [Break] ends the whole
    traversal.  The flag returned tells whether the traversal was ended
    by [Break]. *)
Fixpoint clang_visitChildren {S : Type}
    (visitor : CXCursor → CXCursor → S → Result (CXChildVisitResult * S))
    (parent : CXCursor) (s : S) {struct parent} : Result (bool * S) :=
  (fix siblings (cs : list CXCursor) (s : S) {struct cs}
     : Result (bool * S) :=
     match cs with
     | [] => Ok (false, s)
     | c :: cs' =>
         match visitor c parent s with
         | Err e => Err e
         | Ok (CXChildVisit_Break, s1) => Ok (true, s1)
         | Ok (CXChildVisit_Continue, s1) => siblings cs' s1
         | Ok (CXChildVisit_Recurse, s1) =>
             match clang_visitChildren visitor c s1 with
             | Err e => Err e
             | Ok (true, s2) => Ok (true, s2)
             | Ok (false, s2) => siblings cs' s2
             end
         end
     end) (cursorChildren parent) s.

(** A parsed translation unit: the top-level cursors under its root. *)
Record CXTranslationUnit : Type := mkTU {
  tuTopLevel : list CXCursor
}.

(** [clang_getTranslationUnitCursor]: the root cursor; it has no USR,
    refers to nothing and has no source file. *)
Definition clang_getTranslationUnitCursor (tu : CXTranslationUnit)
  : CXCursor :=
  mkCursor (mkCursorData "" (Some "TranslationUnit") None 0 0) None
           (tuTopLevel tu).

(** Every cursor of a tree, parents before children, siblings in order. *)
Fixpoint preorder (c : CXCursor) : list CXCursor :=
  c :: (fix forest (cs : list CXCursor) : list CXCursor :=
          match cs with
          | [] => []
          | c' :: cs' => preorder c' ++ forest cs'
          end) (cursorChildren c).

Definition preorderForest (cs : list CXCursor) : list CXCursor :=
  concat (map preorder cs).

(** Induction on cursors: a property holds of every cursor if it holds of
    a cursor whenever it holds of all its children. *)
Fixpoint CXCursor_ind (P : CXCursor → Prop)
    (Hnode : ∀ d r cs, Forall P cs → P (mkCursor d r cs))
    (c : CXCursor) {struct c} : P c :=
  match c with
  | mkCursor d r cs =>
      Hnode d r cs
        ((fix children (cs : list CXCursor) : Forall P cs :=
            match cs with
            | [] => List.Forall_nil P
            | c' :: cs' =>
                List.Forall_cons P c' cs' (CXCursor_ind P Hnode c')
                  (children cs')
            end) cs)
  end.

(** The loop of [clang_visitChildren] over the children still to visit. *)
Fixpoint visitSiblings {S : Type}
    (visitor : CXCursor → CXCursor → S → Result (CXChildVisitResult * S))
    (parent : CXCursor) (cs : list CXCursor) (s : S) : Result (bool * S) :=
  match cs with
  | [] => Ok (false, s)
  | c :: cs' =>
      match visitor c parent s with
      | Err e => Err e
      | Ok (CXChildVisit_Break, s1) => Ok (true, s1)
      | Ok (CXChildVisit_Continue, s1) => visitSiblings visitor parent cs' s1
      | Ok (CXChildVisit_Recurse, s1) =>
          match clang_visitChildren visitor c s1 with
          | Err e => Err e
          | Ok (true, s2) => Ok (true, s2)
          | Ok (false, s2) => visitSiblings visitor parent cs' s2
          end
      end
  end.

End clang.

Import indexdb clang.

(** ** clang-indexer/main.cc *)

Record TUIndexer : Type := mkTUIndexer {
  index : Index;
  pathStringTable : string;
  kindStringTable : string;
  usrStringTable : string;
  refTable : string;
  locTable : string
}.

(** The indexer with its index replaced, the table handles unchanged. *)
Definition withIndex (ix : TUIndexer) (idx : Index) : TUIndexer :=
  {| index := idx;
     pathStringTable := pathStringTable ix;
     kindStringTable := kindStringTable ix;
     usrStringTable := usrStringTable ix;
     refTable := refTable ix;
     locTable := locTable ix |}.

Definition nullToBlank (s : option string) : string :=
  match s with
  | Some s => s
  | None => ""
  end.

(** The USR the visitor works with: the referenced cursor's when the
    cursor refers to one, else the cursor's own. *)
Definition resolvedUSR (cursor : CXCursor) : string :=
  match clang_getCursorReferenced cursor with
  | Some cursorRef => cursorUSR cursorRef
  | None => cursorUSR (cursorData cursor)
  end.

Definition visitor (cursor parent : CXCursor) (ix : TUIndexer)
  : Result (CXChildVisitResult * TUIndexer) :=
  let usrCStr := resolvedUSR cursor in
  if decide (usrCStr ≠ "") then
    let line := cursorLine (cursorData cursor) in
    let column := cursorColumn (cursorData cursor) in
    let fileNameCStr := nullToBlank (cursorFileName (cursorData cursor)) in
    let kindCStr := nullToBlank (cursorKindSpelling (cursorData cursor)) in
    '(usrID, idx) ← insert (usrStringTable ix) usrCStr (index ix);
    '(fileNameID, idx) ← insert (pathStringTable ix) fileNameCStr idx;
    '(kindID, idx) ← insert (kindStringTable ix) kindCStr idx;
    idx ← add (refTable ix) [usrID; fileNameID; line; column; kindID] idx;
    idx ← add (locTable ix) [fileNameID; line; column; usrID] idx;
    Ok (CXChildVisit_Recurse, withIndex ix idx)
  else Ok (CXChildVisit_Recurse, ix).

Record SourceFileInfo : Type := mkSourceFileInfo {
  path : string;
  defines : list string;
  includes : list string;
  extraArgs : list string
}.

Definition refColumns : list string := ["usr"; "path"; ""; ""; "kind"].
Definition locColumns : list string := ["path"; ""; ""; "usr"].

Definition newIndex : Result Index :=
  idx ← addStringTable "path" emptyIndex;
  idx ← addStringTable "kind" idx;
  idx ← addStringTable "usr" idx;
  idx ← addTable "ref" refColumns idx;
  idx ← addTable "loc" locColumns idx;
  Ok idx.

(** Modelled from the spec: [Index::stringTable] and [Index::table], which
    hand out the table registered under a name; the handle is the name
    itself. *)
Definition stringTable (name : string) (idx : Index) : Result string :=
  match stringTables idx !! name with
  | Some _ => Ok name
  | None => Err NoSuchTable
  end.

Definition table (name : string) (idx : Index) : Result string :=
  match tables idx !! name with
  | Some _ => Ok name
  | None => Err NoSuchTable
  end.

(** The compiler arguments built from a descriptor record. *)
Definition compilerArgs (sfi : SourceFileInfo) : list string :=
  map (String.append "-D") (defines sfi)
  ++ map (String.append "-I") (includes sfi)
  ++ extraArgs sfi.

(** The line written to the error stream when a file does not parse. *)
Definition parseError (sfi : SourceFileInfo) : string :=
  String.append "Error parsing translation unit: "
    (String.append (path sfi)
       (foldr (λ arg rest, String.append " " (String.append arg rest))
              "" (compilerArgs sfi))).

Section Indexer.

(** [clang_parseTranslationUnit] on a path and its arguments; [None] is
    the null translation unit of a failed parse. *)
Variable clang_parseTranslationUnit :
  string → list string → option CXTranslationUnit.

(** The result of one extraction task: what it wrote to the error
    stream, and the index it returns. *)
Definition indexSourceFile (sfi : SourceFileInfo)
  : list string * Result Index :=
  let args := compilerArgs sfi in
  match clang_parseTranslationUnit (path sfi) args with
  | None => ([parseError sfi], newIndex)
  | Some tu =>
      ([],
       idx ← newIndex;
       pathST ← stringTable "path" idx;
       kindST ← stringTable "kind" idx;
       usrST ← stringTable "usr" idx;
       refT ← table "ref" idx;
       locT ← table "loc" idx;
       let indexer := mkTUIndexer idx pathST kindST usrST refT locT in
       let tuCursor := clang_getTranslationUnitCursor tu in
       '(_, indexer) ← clang_visitChildren visitor tuCursor indexer;
       Ok (setReadOnly (index indexer)))
  end.

End Indexer.

(** ** The build descriptor *)

(** A JSON document as the reader hands it over (numbers and booleans,
    which a descriptor has no use for, are left out). *)
#[local] Unset Elimination Schemes.
Inductive Json : Type :=
  | JNull
  | JString (s : string)
  | JArray (elements : list Json)
  | JObject (members : list (string * Json)).
#[local] Set Elimination Schemes.

(** Iteration from [begin()] to [end()]: the elements of an array, the
    member values of an object, nothing for any other value. *)
Definition jsonElements (json : Json) : list Json :=
  match json with
  | JArray elements => elements
  | JObject members => map snd members
  | _ => []
  end.

(** [json[key]]: the member of an object, null when absent or when the
    value itself is null; any other value is not subscriptable. *)
Definition jsonMember (json : Json) (key : string) : Result Json :=
  match json with
  | JNull => Ok JNull
  | JObject members =>
      match list_find (λ kv, fst kv = key) members with
      | Some (_, (_, value)) => Ok value
      | None => Ok JNull
      end
  | _ => Err JsonError
  end.

Definition asString (json : Json) : Result string :=
  match json with
  | JNull => Ok ""
  | JString s => Ok s
  | _ => Err JsonError
  end.

Definition readJsonStringList (json : Json) : Result (list string) :=
  mapR asString (jsonElements json).

(** The record built from one element of the descriptor. *)
Definition readSourceFileInfo (sourceJson : Json) : Result SourceFileInfo :=
  file ← jsonMember sourceJson "file";
  path ← asString file;
  definesJson ← jsonMember sourceJson "defines";
  defines ← readJsonStringList definesJson;
  includesJson ← jsonMember sourceJson "includes";
  includes ← readJsonStringList includesJson;
  extraArgsJson ← jsonMember sourceJson "extraArgs";
  extraArgs ← readJsonStringList extraArgsJson;
  Ok (mkSourceFileInfo path defines includes extraArgs).

(** ** The pipeline *)

(** What a run leaves behind: the exit code ([None] when the process was
    killed by a failed assertion), the file written by [save], what the
    main thread wrote to the standard output and the tasks to the error
    stream, and the records for which a task was submitted.  The tasks
    write to the error stream from the threads of the pool, so that the
    order of their lines depends on the scheduling: the stream is kept
    as the multiset of its lines.  For a killed process the error stream
    is not modelled and left empty. *)
Record Outcome : Type := mkOutcome {
  exitCode : option Z;
  saved : option (string * Index);
  stdout : list string;
  stderr : gmultiset string;
  dispatched : list SourceFileInfo
}.

Section Pipeline.

Variable clang_parseTranslationUnit :
  string → list string → option CXTranslationUnit.

(** The document behind a file name; [None] when the file cannot be
    opened, in which case the reader leaves the root value null. *)
Variable readFile : string → option Json.

Abbreviation indexFile := (indexSourceFile clang_parseTranslationUnit).

(** First loop of [readSourcesJson]: one task is submitted per element,
    in order; the records submitted are returned with the failure that
    ended the loop early, if any. *)
Fixpoint dispatchLoop (elements : list Json)
  : list SourceFileInfo * Result unit :=
  match elements with
  | [] => ([], Ok ())
  | sourceJson :: rest =>
      match readSourceFileInfo sourceJson with
      | Err e => ([], Err e)
      | Ok sfi =>
          let '(sfis, r) := dispatchLoop rest in
          (sfi :: sfis, r)
      end
  end.

(** Second loop: for each task in submission order the path is printed,
    the task's index is taken from its future and merged. *)
Fixpoint collectLoop (sfis : list SourceFileInfo) (index : Index)
  : list string * Result Index :=
  match sfis with
  | [] => ([], Ok index)
  | sfi :: rest =>
      match fileIndex ← snd (indexFile sfi); merge index fileIndex with
      | Err e => ([path sfi], Err e)
      | Ok index' =>
          let '(out, r) := collectLoop rest index' in
          (path sfi :: out, r)
      end
  end.

(** [readSourcesJson] on a JSON value: the records submitted, the
    standard output, and the index after the merges. *)
Definition readSourcesJson (json : Json) (index : Index)
  : list SourceFileInfo * list string * Result Index :=
  match dispatchLoop (jsonElements json) with
  | (sfis, Err e) => (sfis, [], Err e)
  | (sfis, Ok _) =>
      let '(out, r) := collectLoop sfis index in
      (sfis, out, r)
  end.

(** [readSourcesJson] on a file name: the root value stays null when
    the reader cannot parse the file. *)
Definition readSourcesJsonFile (filename : string) (index : Index)
  : list SourceFileInfo * list string * Result Index :=
  let rootJson := default JNull (readFile filename) in
  readSourcesJson rootJson index.

(** The error stream of a finished run: the message of every task whose
    file did not parse, in no particular order. *)
Definition taskErrors (sfis : list SourceFileInfo) : gmultiset string :=
  list_to_set_disj (concat (map (λ sfi, fst (indexFile sfi)) sfis)).

Definition main : Outcome :=
  let index := emptyIndex in
  match readSourcesJsonFile "btrace.sources" index with
  | (sfis, out, Err e) =>
      {| exitCode := None; saved := None;
         stdout := out; stderr := ∅; dispatched := sfis |}
  | (sfis, out, Ok index) =>
      let index := setReadOnly index in
      {| exitCode := Some 0%Z; saved := Some ("index", index);
         stdout := out; stderr := taskErrors sfis; dispatched := sfis |}
  end.

End Pipeline.


(** ** Notions used to state the properties of the extraction *)

(** An index with the schema of [newIndex], given by the contents of its
    three string tables and two tables. *)
Definition fileIndex (paths kinds usrs : list string)
    (refRows locRows : list Row) (ro : bool) : Index :=
  {| stringTables :=
       <["usr" := usrs]> (<["kind" := kinds]> (<["path" := paths]> ∅));
     tables :=
       <["loc" := mkTable locColumns locRows]>
         (<["ref" := mkTable refColumns refRows]> ∅);
     readonly := ro |}.

(** The indexer as [indexSourceFile] sets it up, around a given index. *)
Definition indexerOn (idx : Index) : TUIndexer :=
  mkTUIndexer idx "path" "kind" "usr" "ref" "loc".

(** The state of an extraction in progress: the handles name the five
    tables and the index is a writable index with the schema of
    [newIndex]. *)
Definition extracting (ix : TUIndexer) : Prop :=
  ∃ paths kinds usrs refRows locRows,
    ix = indexerOn (fileIndex paths kinds usrs refRows locRows false).

(** The indexer after the visitor has been called on a cursor. *)
Definition visited (cursor : CXCursor) (ix : TUIndexer) : TUIndexer :=
  match visitor cursor cursor ix with
  | Ok (_, ix') => ix'
  | Err _ => ix
  end.

(** A visitor that also records the cursors it is called on. *)
Definition logged {S : Type}
    (v : CXCursor → CXCursor → S → Result (CXChildVisitResult * S))
    (cursor parent : CXCursor) (sl : S * list CXCursor)
  : Result (CXChildVisitResult * (S * list CXCursor)) :=
  '(r, s') ← v cursor parent (fst sl);
  Ok (r, (s', snd sl ++ [cursor])).

(** The cursors of a list that the visitor emits facts for. *)
Definition emitting (cs : list CXCursor) : list CXCursor :=
  filter (λ c, resolvedUSR c ≠ "") cs.

(** A reference row and a location row of the same occurrence. *)
Definition alignedRows (refRow locRow : Row) : Prop :=
  ∃ usrID fileNameID line column kindID,
    refRow = [usrID; fileNameID; line; column; kindID] ∧
    locRow = [fileNameID; line; column; usrID].

(** The state after the given cursors have been visited one by one. *)
Definition steps {S : Type} (step : CXCursor → S → S)
    (s : S) (cs : list CXCursor) : S :=
  foldl (λ s c, step c s) s cs.

(** The rows of the table registered under a name (none when absent). *)
Definition tableRows (idx : Index) (name : string) : list Row :=
  match tables idx !! name with
  | Some t => rows t
  | None => []
  end.

(** What one call of the visitor adds: one row at the end of each table,
    which read through the string tables are the two given tuples. *)
Definition emits (ix ix' : TUIndexer) (refFact locFact : list Cell) : Prop :=
  ∃ refRow locRow,
    tableRows (index ix') "ref" = tableRows (index ix) "ref" ++ [refRow] ∧
    tableRows (index ix') "loc" = tableRows (index ix) "loc" ++ [locRow] ∧
    resolveRow (index ix') refColumns refRow = Some refFact ∧
    resolveRow (index ix') locColumns locRow = Some locFact.

(** ** Example inputs *)

(** A file that defines a function [f] and calls it. *)
Definition declF : CursorData :=
  mkCursorData "c:@F@f" (Some "FunctionDecl") (Some "a.c") 1 6.

Definition callF : CXCursor :=
  mkCursor (mkCursorData "" (Some "CallExpr") (Some "a.c") 2 3)
           (Some declF) [].

Definition tuA : CXTranslationUnit :=
  mkTU [mkCursor declF (Some declF)
          [mkCursor (mkCursorData "" (Some "CompoundStmt") (Some "a.c") 1 10)
                    None [callF]]].

(** A file that declares a variable [g]. *)
Definition tuC : CXTranslationUnit :=
  mkTU [mkCursor (mkCursorData "c:@g" (Some "VarDecl") (Some "c.c") 1 5)
                 None []].

(** A frontend that parses [a.c] and [c.c] and nothing else. *)
Definition exampleParse (path : string) (args : list string)
  : option CXTranslationUnit :=
  if decide (path = "a.c") then Some tuA
  else if decide (path = "c.c") then Some tuC
  else None.

Definition sfiA : SourceFileInfo := mkSourceFileInfo "a.c" ["N=1"] ["inc"] [].
Definition sfiB : SourceFileInfo := mkSourceFileInfo "b.c" [] [] ["-x"].
Definition sfiC : SourceFileInfo := mkSourceFileInfo "c.c" [] [] [].

Definition jsonRecord (file : string) : Json :=
  JObject [("file", JString file)].

(** A descriptor listing [a.c], [b.c] and [c.c]. *)
Definition threeFiles : Json :=
  JArray [jsonRecord "a.c"; jsonRecord "b.c"; jsonRecord "c.c"].

(** The facts added by one call of the visitor are keyed to the USR [u]:
    nothing is added when [u] is empty, otherwise one reference fact that
    starts with [u] and one location fact that ends with it. *)
Definition factsUse (ix ix' : TUIndexer) (u : string) : Prop :=
  if decide (u = "") then ix' = ix
  else ∃ file line column kind,
         emits ix ix' [CStr u; file; line; column; kind]
                      [file; line; column; CStr u].

(** Two small per-file indexes. *)
Definition indexA : Index :=
  fileIndex ["a.c"] ["FunctionDecl"] ["c:@F@f"]
            [[0; 0; 1; 6; 0]%N] [[0; 1; 6; 0]%N] true.

Definition indexC : Index :=
  fileIndex ["c.c"] ["VarDecl"] ["c:@g"]
            [[0; 0; 1; 5; 0]%N] [[0; 1; 5; 0]%N] true.

(** ** Notions used to state the properties of the pipeline *)

(** A descriptor that cannot be used: the file cannot be read, or its
    root value is neither an array nor an object. *)
Definition unusable (doc : option Json) : Prop :=
  match doc with
  | None => True
  | Some JNull => True
  | Some (JString _) => True
  | Some (JArray _) => False
  | Some (JObject _) => False
  end.

(** A fatal startup error: a non-zero exit with a diagnostic, before any
    task is dispatched and without an output file. *)
Definition fatalStartup (o : Outcome) : Prop :=
  exitCode o ≠ Some 0%Z ∧ stderr o ≠ ∅ ∧ dispatched o = [] ∧ saved o = None.

(** The schema of the index built by [newIndex]. *)
Definition fileSchema : gset string * gmap string (list string) :=
  ({["path"; "kind"; "usr"]},
   {["ref" := refColumns; "loc" := locColumns]}).

(** ** The worker pool *)

(** [readSourcesJson] submits one task per record to the thread pool and
    then takes the results from the futures.  What the main thread and the
    workers do is recorded as a trace of events. *)
Inductive Event : Type :=
  | EvSubmit (i : nat)    (* the task of record [i] is handed to the pool *)
  | EvFinish (i : nat)    (* a worker has finished task [i] *)
  | EvAwait (i : nat)     (* [result()] of future [i] has returned *)
  | EvMerge (i : nat)     (* the index of task [i] is merged *)
  | EvDelete (i : nat).   (* the index of task [i] is deleted *)

(** A future: the task is still running, has finished with a result, or
    its index has been taken and deleted. *)
Inductive TaskState : Type :=
  | Running
  | Finished (r : Result Index)
  | Consumed.

(** Where the main thread stands in [readSourcesJson]. *)
Inductive PC : Type :=
  | Dispatch (k : nat)                    (* first loop, [k] tasks submitted *)
  | Await (i : nat)                       (* second loop, before [result()] *)
  | Merging (i : nat) (fileIndex : Index) (* before [merge] *)
  | Deleting (i : nat)                    (* before [delete] *)
  | Returned
  | Aborted (e : Error).

Record Pool : Type := mkPool {
  pc : PC;
  futures : list TaskState;
  global : Index;
  trace : list Event
}.

Definition initial (index : Index) : Pool :=
  mkPool (Dispatch 0) [] index [].

(** One step of the main thread or of a worker.  [result()] blocks: the
    main thread can only take the result of a finished task.  A worker
    may finish any running task at any time. *)
Inductive step
    (parse : string → list string → option CXTranslationUnit)
    (sfis : list SourceFileInfo) : Pool → Pool → Prop :=
  | step_submit k sfi fs g tr :
      sfis !! k = Some sfi →
      step parse sfis (mkPool (Dispatch k) fs g tr)
           (mkPool (Dispatch (S k)) (fs ++ [Running]) g (tr ++ [EvSubmit k]))
  | step_collect fs g tr :
      step parse sfis (mkPool (Dispatch (length sfis)) fs g tr)
           (mkPool (Await 0) fs g tr)
  | step_finish p j sfi fs g tr :
      fs !! j = Some Running →
      sfis !! j = Some sfi →
      step parse sfis (mkPool p fs g tr)
           (mkPool p (<[j := Finished (snd (indexSourceFile parse sfi))]> fs)
                   g (tr ++ [EvFinish j]))
  | step_await i fileIndex fs g tr :
      fs !! i = Some (Finished (Ok fileIndex)) →
      step parse sfis (mkPool (Await i) fs g tr)
           (mkPool (Merging i fileIndex) fs g (tr ++ [EvAwait i]))
  | step_await_failed i e fs g tr :
      fs !! i = Some (Finished (Err e)) →
      step parse sfis (mkPool (Await i) fs g tr) (mkPool (Aborted e) fs g tr)
  | step_merge i fileIndex fs g g' tr :
      merge g fileIndex = Ok g' →
      step parse sfis (mkPool (Merging i fileIndex) fs g tr)
           (mkPool (Deleting i) fs g' (tr ++ [EvMerge i]))
  | step_merge_failed i fileIndex e fs g tr :
      merge g fileIndex = Err e →
      step parse sfis (mkPool (Merging i fileIndex) fs g tr)
           (mkPool (Aborted e) fs g tr)
  | step_delete i fs g tr :
      step parse sfis (mkPool (Deleting i) fs g tr)
           (mkPool (Await (S i)) (<[i := Consumed]> fs) g (tr ++ [EvDelete i]))
  | step_return fs g tr :
      step parse sfis (mkPool (Await (length sfis)) fs g tr)
           (mkPool Returned fs g tr).

(** The events of the main thread. *)
Definition isMain (e : Event) : bool :=
  match e with
  | EvFinish _ => false
  | _ => true
  end.

Definition mainEvents (tr : list Event) : list Event := List.filter isMain tr.

(** The main thread's events of a complete run over [n] records: the [n]
    submissions, then for each task in submission order its await, its
    merge and its delete. *)
Definition submits (k : nat) : list Event := map EvSubmit (seq 0 k).

Definition round (i : nat) : list Event := [EvAwait i; EvMerge i; EvDelete i].

Definition rounds (i : nat) : list Event := concat (map round (seq 0 i)).

Definition schedule (n : nat) : list Event := submits n ++ rounds n.

(** The number of task indexes merged so far. *)
Definition merged (n : nat) (p : PC) : nat :=
  match p with
  | Dispatch _ => 0
  | Await i => i
  | Merging i _ => i
  | Deleting i => S i
  | Returned => n
  | Aborted _ => 0
  end.

(** The number of task indexes deleted so far. *)
Definition deleted (n : nat) (p : PC) : nat :=
  match p with
  | Dispatch _ => 0
  | Await i => i
  | Merging i _ => i
  | Deleting i => i
  | Returned => n
  | Aborted _ => 0
  end.

(** The main thread's events up to a given point. *)
Definition eventsAt (n : nat) (p : PC) : list Event :=
  match p with
  | Dispatch k => submits k
  | Await i => submits n ++ rounds i
  | Merging i _ => submits n ++ rounds i ++ [EvAwait i]
  | Deleting i => submits n ++ rounds i ++ [EvAwait i; EvMerge i]
  | Returned => schedule n
  | Aborted _ => []
  end.

Definition running (p : PC) : Prop :=
  match p with
  | Aborted _ => False
  | _ => True
  end.

(** What holds of every state the pool can reach from [initial g0]. *)
Definition poolInv
    (parse : string → list string → option CXTranslationUnit)
    (sfis : list SourceFileInfo) (g0 : Index) (s : Pool) : Prop :=
  let n := length sfis in
  match pc s with
  | Aborted _ => mainEvents (trace s) `prefix_of` schedule n
  | p =>
      mainEvents (trace s) = eventsAt n p ∧
      match p with
      | Dispatch k => k ≤ n ∧ length (futures s) = k
      | Await i => i ≤ n ∧ length (futures s) = n
      | Merging i fileIndex =>
          i < n ∧ length (futures s) = n ∧
          ∃ sfi, sfis !! i = Some sfi ∧
                 snd (indexSourceFile parse sfi) = Ok fileIndex
      | Deleting i => i < n ∧ length (futures s) = n
      | _ => length (futures s) = n
      end ∧
      snd (collectLoop parse (take (merged n p) sfis) g0) = Ok (global s) ∧
      ∀ j st, futures s !! j = Some st →
        if decide (j < deleted n p) then st = Consumed
        else st = Running ∨
             ∃ sfi, sfis !! j = Some sfi ∧
                    st = Finished (snd (indexSourceFile parse sfi))
  end.

(** ** Notions used to state further properties of the extraction *)

(** The strings of the string table registered under a name. *)
Definition stringsOf (idx : Index) (name : string) : list string :=
  default [] (stringTables idx !! name).

(** The file name and the kind that the visitor records for a cursor. *)
Definition cursorFile (c : CXCursor) : string :=
  nullToBlank (cursorFileName (cursorData c)).

Definition cursorKind (c : CXCursor) : string :=
  nullToBlank (cursorKindSpelling (cursorData c)).

(** The reference fact and the location fact of a cursor, as tuples of
    strings and integers. *)
Definition refFact (c : CXCursor) : list Cell :=
  [CStr (resolvedUSR c); CStr (cursorFile c);
   CRaw (cursorLine (cursorData c)); CRaw (cursorColumn (cursorData c));
   CStr (cursorKind c)].

Definition locFact (c : CXCursor) : list Cell :=
  [CStr (cursorFile c);
   CRaw (cursorLine (cursorData c)); CRaw (cursorColumn (cursorData c));
   CStr (resolvedUSR c)].

(** The cursors of a file that facts are emitted for, in the order of the
    traversal; none when the file does not parse. *)
Definition fileCursors
    (parse : string → list string → option CXTranslationUnit)
    (sfi : SourceFileInfo) : list CXCursor :=
  match parse (path sfi) (compilerArgs sfi) with
  | Some tu => emitting (preorderForest (tuTopLevel tu))
  | None => []
  end.

(** Whether the frontend fails on the file of a record. *)
Definition failsToParse
    (parse : string → list string → option CXTranslationUnit)
    (sfi : SourceFileInfo) : bool :=
  match parse (path sfi) (compilerArgs sfi) with
  | Some _ => false
  | None => true
  end.

(** A descriptor element that spells out the four fields of a record. *)
Definition recordJson (sfi : SourceFileInfo) : Json :=
  JObject [("file", JString (path sfi));
           ("defines", JArray (map JString (defines sfi)));
           ("includes", JArray (map JString (includes sfi)));
           ("extraArgs", JArray (map JString (extraArgs sfi)))].

(** ** Notions used to state further properties of the worker pool *)

Definition isRunning (st : TaskState) : bool :=
  match st with
  | Running => true
  | _ => false
  end.

Definition countRunning (fs : list TaskState) : nat :=
  length (List.filter isRunning fs).

(** An upper bound on the number of steps the pool can still take: those
    left to the main thread, and one per running task. *)
Definition stepsLeft (n : nat) (s : Pool) : nat :=
  countRunning (futures s) +
  match pc s with
  | Dispatch k => 2 * (n - k) + 3 * n + 2
  | Await i => 3 * (n - i) + 1
  | Merging i _ => 3 * (n - i)
  | Deleting i => 3 * (n - i) - 1
  | Returned => 0
  | Aborted _ => 0
  end.

Definition final (s : Pool) : Prop :=
  match pc s with
  | Returned => True
  | Aborted _ => True
  | _ => False
  end.

(** A cursor with a USR of its own that refers to a declaration without
    one. *)
Definition unnamedDecl : CursorData :=
  mkCursorData "" (Some "ParmDecl") (Some "a.c") 1 12.

Definition refToUnnamed : CXCursor :=
  mkCursor (mkCursorData "c:@x" (Some "DeclRefExpr") (Some "a.c") 3 1)
           (Some unnamedDecl) [].

(** * Properties of the index database *)

Module indexdb_facts.

Lemma mapR_Ok {A B} (f : A → Result B) (l : list A) (l' : list B) :
  mapR f l = Ok l' ↔ Forall2 (λ a b, f a = Ok b) l l'.
Proof.
  revert l'. induction l as [|a l IH]; intros l'; simpl.
  - split.
    + intros [= <-]. constructor.
    + intros H. inversion H. reflexivity.
  - split.
    + destruct (f a) as [b|e] eqn:Hfa; simpl; [|discriminate].
      destruct (mapR f l) as [bs|e] eqn:Hl; simpl; [|discriminate].
      intros [= <-]. constructor; [assumption|]. by apply IH.
    + intros H. inversion H as [|? b ? bs Hab Hbs]; subst.
      rewrite Hab. simpl. apply IH in Hbs. rewrite Hbs. reflexivity.
Qed.

Lemma findString_Some s strs i :
  findString s strs = Some i → strs !! i = Some s.
Proof.
  unfold findString. intros H.
  destruct (list_find (λ x, x = s) strs) as [[j x]|] eqn:Hfind;
    simpl in H; [|discriminate].
  injection H as <-.
  apply list_find_Some in Hfind as (Hx & -> & _). exact Hx.
Qed.

Lemma findString_None s strs :
  findString s strs = None → s ∉ strs.
Proof.
  unfold findString. intros H.
  destruct (list_find (λ x, x = s) strs) as [[j x]|] eqn:Hfind;
    simpl in H; [discriminate|].
  apply list_find_None in Hfind. rewrite Forall_forall in Hfind.
  intros Hin. by apply (Hfind s).
Qed.

Lemma findString_is_Some s strs :
  s ∈ strs → is_Some (findString s strs).
Proof.
  intros Hin. destruct (findString s strs) eqn:H; [eauto|].
  by apply findString_None in H.
Qed.

(** Insert-or-get: the table only grows at its end, the ID returned
    names the string, and no string is stored twice. *)
Lemma internString_spec s strs id strs' :
  internString s strs = (id, strs') →
  strs `prefix_of` strs' ∧
  strs' !! N.to_nat id = Some s ∧
  (NoDup strs → NoDup strs') ∧
  (∀ x, x ∈ strs' ↔ x ∈ strs ∨ x = s).
Proof.
  unfold internString.
  destruct (findString s strs) as [i|] eqn:Hfind; intros [= <- <-].
  - apply findString_Some in Hfind. rewrite Nat2N.id.
    split_and!; [done|done|done|].
    intros x. split; [by left|]. intros [Hx| ->]; [done|].
    by eapply list_elem_of_lookup_2.
  - apply findString_None in Hfind. rewrite Nat2N.id.
    split_and!.
    + by apply prefix_app_r.
    + rewrite lookup_app_r; [|lia]. by rewrite Nat.sub_diag.
    + intros Hnd. apply NoDup_app. split_and!; [done| |apply NoDup_singleton].
      intros x Hx ->%list_elem_of_singleton. done.
    + intros x. rewrite elem_of_app, list_elem_of_singleton. done.
Qed.

(** Idempotent interning: the second insert of a string returns the ID
    of the first and leaves the table as it is. *)
Lemma internString_twice s strs id strs' :
  internString s strs = (id, strs') →
  internString s strs' = (id, strs').
Proof.
  intros H. pose proof (internString_spec _ _ _ _ H) as (_ & Hid & _ & _).
  revert H. unfold internString.
  destruct (findString s strs) as [i|] eqn:Hfind; intros [= <- <-].
  - by rewrite Hfind.
  - destruct (findString s (strs ++ [s])) as [j|] eqn:Hj.
    + f_equal. f_equal.
      unfold findString in Hj.
      destruct (list_find (λ x, x = s) (strs ++ [s])) as [[k x]|] eqn:Hk;
        simpl in Hj; [|discriminate].
      injection Hj as <-.
      apply list_find_Some in Hk as (Hx & -> & Hbefore).
      apply findString_None in Hfind.
      destruct (decide (k < length strs)) as [Hlt|Hge].
      * rewrite lookup_app_l in Hx by done.
        exfalso. apply Hfind. by eapply list_elem_of_lookup_2.
      * apply lookup_lt_Some in Hx. rewrite length_app in Hx. simpl in Hx.
        lia.
    + apply findString_None in Hj. exfalso. apply Hj.
      apply elem_of_app. right. by apply list_elem_of_singleton.
Qed.

Lemma internAll_spec srcStrs : ∀ dstStrs dstStrs' ids,
  internAll dstStrs srcStrs = (dstStrs', ids) →
  dstStrs `prefix_of` dstStrs' ∧
  Forall2 (λ s id, dstStrs' !! N.to_nat id = Some s) srcStrs ids ∧
  (NoDup dstStrs → NoDup dstStrs') ∧
  (∀ x, x ∈ dstStrs' ↔ x ∈ dstStrs ∨ x ∈ srcStrs).
Proof.
  induction srcStrs as [|s rest IH]; intros ds ds' ids; simpl.
  - intros [= <- <-]. split_and!; [done|constructor|done|].
    intros x. rewrite elem_of_nil. tauto.
  - destruct (internString s ds) as [id ds1] eqn:H1.
    destruct (internAll ds1 rest) as [ds2 ids'] eqn:H2.
    intros [= <- <-].
    apply internString_spec in H1 as (Hp1 & Hid & Hnd1 & Hel1).
    apply IH in H2 as (Hp2 & Hall & Hnd2 & Hel2).
    split_and!.
    + by etrans.
    + constructor; [|done].
      by eapply prefix_lookup_Some.
    + auto.
    + intros x. rewrite Hel2, Hel1, elem_of_cons. tauto.
Qed.

(** *** What merging does to the string tables *)

Lemma mergeStrings_lookup dst src name :
  mergeStrings dst src !! name =
    (λ ds, match stringTables src !! name with
           | Some ss => fst (internAll ds ss)
           | None => ds
           end) <$> stringTables dst !! name.
Proof.
  unfold mergeStrings. rewrite map_lookup_imap.
  by destruct (stringTables dst !! name).
Qed.

Lemma mergeStrings_extends dst src :
  extends (stringTables dst) (mergeStrings dst src).
Proof.
  intros name ds Hds. rewrite mergeStrings_lookup, Hds. simpl.
  destruct (stringTables src !! name) as [ss|]; [|by eexists].
  eexists. split; [done|].
  destruct (internAll ds ss) as [ds' ids] eqn:H.
  by apply internAll_spec in H as (? & _).
Qed.

Lemma resolveCell_extends a b col v x :
  extends (stringTables a) (stringTables b) →
  resolveCell a col v = Some x → resolveCell b col v = Some x.
Proof.
  unfold resolveCell. intros Hext.
  destruct (decide (col = "")); [done|].
  destruct (stringTables a !! col) as [strs|] eqn:Ha; simpl; [|done].
  destruct (Hext _ _ Ha) as (strs' & -> & Hpre). simpl.
  destruct (strs !! N.to_nat v) as [s|] eqn:Hs; simpl; [|done].
  intros [= <-]. by rewrite (prefix_lookup_Some _ _ _ _ Hs Hpre).
Qed.

Lemma resolveRow_extends a b cols : ∀ row tup,
  extends (stringTables a) (stringTables b) →
  resolveRow a cols row = Some tup → resolveRow b cols row = Some tup.
Proof.
  induction cols as [|c cols IH]; intros [|v row] tup Hext; simpl; try done.
  destruct (resolveCell a c v) as [x|] eqn:Hx; simpl; [|done].
  destruct (resolveRow a cols row) as [xs|] eqn:Hxs; simpl; [|done].
  intros [= <-].
  rewrite (resolveCell_extends _ _ _ _ _ Hext Hx). simpl.
  by rewrite (IH _ _ Hext Hxs).
Qed.

Lemma resolveRow_length idx cols : ∀ row tup,
  resolveRow idx cols row = Some tup →
  length row = length cols ∧ length tup = length cols.
Proof.
  induction cols as [|c cols IH]; intros [|v row] tup; simpl; try done.
  - by intros [= <-].
  - destruct (resolveCell idx c v); simpl; [|done].
    destruct (resolveRow idx cols row) as [xs|] eqn:Hxs; simpl; [|done].
    intros [= <-]. apply IH in Hxs as [Hrow Htup]. simpl. by rewrite Hrow, Htup.
Qed.

(** *** Translating a row *)

Section Translate.
Variables dst src merged : Index.
Hypothesis merged_strings : stringTables merged = mergeStrings dst src.

(** A translated cell names, in the merged string tables, the string
    that the source cell names in the source. *)
Lemma translateCell_resolve col v v' :
  translateCell (translation dst src) col v = Ok v' →
  ∃ x, resolveCell src col v = Some x ∧ resolveCell merged col v' = Some x.
Proof.
  unfold translateCell, resolveCell, translation.
  destruct (decide (col = "")); [intros [= <-]; eauto|].
  destruct (stringTables dst !! col) as [ds|] eqn:Hd; [|done].
  destruct (stringTables src !! col) as [ss|] eqn:Hs; [|done].
  destruct (snd (internAll ds ss) !! N.to_nat v) as [w|] eqn:Hw; [|done].
  intros [= <-]. simpl.
  pose proof (surjective_pairing (internAll ds ss)) as Hall.
  apply internAll_spec in Hall as (_ & HF & _ & _).
  destruct (Forall2_lookup_r _ _ _ _ _ HF Hw) as (s & Hsv & Hres).
  exists (CStr s). rewrite Hsv. simpl. split; [done|].
  rewrite merged_strings, mergeStrings_lookup, Hd, Hs. simpl. by rewrite Hres.
Qed.

Lemma translateRow_resolve cols : ∀ row row',
  translateRow (translation dst src) cols row = Ok row' →
  ∃ tup, resolveRow src cols row = Some tup ∧
         resolveRow merged cols row' = Some tup.
Proof.
  induction cols as [|c cols IH]; intros [|v row] row'; simpl; try done.
  - intros [= <-]. eauto.
  - destruct (translateCell _ c v) as [w|] eqn:Hw; simpl; [|done].
    destruct (translateRow _ cols row) as [r|] eqn:Hr; simpl; [|done].
    intros [= <-].
    apply translateCell_resolve in Hw as (x & -> & Hx).
    apply IH in Hr as (xs & -> & Hxs). simpl.
    exists (x :: xs). split; [done|].
    rewrite Hx. simpl. by rewrite Hxs.
Qed.

(** A source cell that resolves is translated, provided its column's
    string table is registered in the destination. *)
Lemma translateCell_total col v :
  (col ≠ "" → is_Some (stringTables dst !! col)) →
  is_Some (resolveCell src col v) →
  ∃ v', translateCell (translation dst src) col v = Ok v'.
Proof.
  unfold translateCell, resolveCell, translation. intros Hreg.
  destruct (decide (col = "")); [eauto|].
  destruct (Hreg n) as [ds ->].
  destruct (stringTables src !! col) as [ss|]; simpl; [|by intros [? ?]].
  destruct (ss !! N.to_nat v) as [s|] eqn:Hs; simpl; [|by intros [? ?]].
  intros _.
  pose proof (surjective_pairing (internAll ds ss)) as Hall.
  apply internAll_spec in Hall as (_ & HF & _ & _).
  destruct (Forall2_lookup_l _ _ _ _ _ HF Hs) as (w & Hw & _).
  simpl. rewrite Hw. eauto.
Qed.

Lemma translateRow_total cols : ∀ row,
  Forall (λ col, col ≠ "" → is_Some (stringTables dst !! col)) cols →
  is_Some (resolveRow src cols row) →
  ∃ row', translateRow (translation dst src) cols row = Ok row'.
Proof.
  induction cols as [|c cols IH]; intros [|v row] Hreg; simpl;
    try (by intros [? ?]).
  - eauto.
  - inversion Hreg as [|? ? Hc Hcols]; subst.
    destruct (resolveCell src c v) as [x|] eqn:Hx; simpl;
      [|by intros [? ?]].
    destruct (resolveRow src cols row) as [xs|] eqn:Hxs; simpl;
      [|by intros [? ?]].
    intros _.
    destruct (translateCell_total c v Hc) as [w ->]; [by rewrite Hx|].
    destruct (IH row Hcols) as [r ->]; [by rewrite Hxs|].
    simpl. eauto.
Qed.

End Translate.

(** *** What merging does to the tables *)

(** A fallible map over the entries of a finite map that keeps the keys:
    the result, read back as a map, has the same keys. *)
Lemma mapR_entries {A B} (f : string → A → Result B)
    (l : list (string * A)) (ts : list (string * B)) :
  mapR (λ '(k, a), b ← f k a; Ok (k, b)) l = Ok ts →
  Forall2 (λ ka kb, ka.1 = kb.1 ∧ f ka.1 ka.2 = Ok kb.2) l ts.
Proof.
  intros H. apply mapR_Ok in H.
  eapply Forall2_impl; [exact H|].
  intros [k a] [k' b]. simpl.
  destruct (f k a) as [b'|]; simpl; [|done].
  by intros [= <- <-].
Qed.

Lemma mapR_entries_lookup {A B} (f : string → A → Result B)
    (m : gmap string A) (ts : list (string * B)) (k : string) :
  mapR (λ '(k, a), b ← f k a; Ok (k, b)) (map_to_list m) = Ok ts →
  match m !! k with
  | Some a => ∃ b, f k a = Ok b ∧ (list_to_map ts : gmap string B) !! k = Some b
  | None => (list_to_map ts : gmap string B) !! k = None
  end.
Proof.
  intros H. apply mapR_entries in H.
  assert (Hkeys : ts.*1 = (map_to_list m).*1).
  { clear k. induction H as [|[k a] [k' b] l l' [Hk _] _ IH]; [done|].
    rewrite !fmap_cons. simpl in *. congruence. }
  assert (Hnd : NoDup ts.*1).
  { rewrite Hkeys. apply NoDup_fst_map_to_list. }
  destruct (m !! k) as [a|] eqn:Hm.
  - apply elem_of_map_to_list in Hm.
    apply list_elem_of_lookup in Hm as [i Hi].
    destruct (Forall2_lookup_l _ _ _ _ _ H Hi) as ([k' b] & Hts & Hk & Hf).
    simpl in *. subst k'. exists b. split; [done|].
    apply elem_of_list_to_map_1; [done|].
    by eapply list_elem_of_lookup_2.
  - apply not_elem_of_list_to_map_1. rewrite Hkeys.
    intros Hin. apply list_elem_of_fmap in Hin as ([k' a] & -> & Hin).
    apply elem_of_map_to_list in Hin. simpl in Hm. congruence.
Qed.

Lemma mapR_entries_total {A B} (f : string → A → Result B)
    (m : gmap string A) :
  map_Forall (λ k a, ∃ b, f k a = Ok b) m →
  ∃ ts, mapR (λ '(k, a), b ← f k a; Ok (k, b)) (map_to_list m) = Ok ts.
Proof.
  intros Hall.
  assert (Hl : Forall (λ ka, ∃ b, f ka.1 ka.2 = Ok b) (map_to_list m)).
  { apply Forall_forall. intros [k a] Hin.
    apply elem_of_map_to_list in Hin. by apply Hall in Hin. }
  induction Hl as [|[k a] l [b Hb] _ [ts IH]]; simpl; [by eexists|].
  simpl in Hb. rewrite Hb. simpl. rewrite IH. simpl. by eexists.
Qed.

(** The table registered under [name] after a merge. *)
Lemma merge_tables_lookup dst src d name :
  merge dst src = Ok d →
  match tables dst !! name with
  | Some dt =>
      ∃ t, mergeTable (translation dst src) src name dt = Ok t ∧
           tables d !! name = Some t
  | None => tables d !! name = None
  end.
Proof.
  unfold merge. destruct (readonly dst); [done|].
  destruct (decide (schema dst = schema src)); [|done].
  destruct (mergeTables dst src) as [ts|] eqn:Hts; simpl; [|done].
  intros [= <-]. simpl.
  by apply (mapR_entries_lookup _ _ _ name) in Hts.
Qed.

Lemma merge_stringTables dst src d :
  merge dst src = Ok d → stringTables d = mergeStrings dst src.
Proof.
  unfold merge. destruct (readonly dst); [done|].
  destruct (decide (schema dst = schema src)); [|done].
  destruct (mergeTables dst src) as [ts|]; simpl; [|done].
  by intros [= <-].
Qed.

Lemma merge_readonly dst src d :
  merge dst src = Ok d → readonly dst = false ∧ readonly d = false.
Proof.
  unfold merge. destruct (readonly dst) eqn:Hro; [done|].
  destruct (decide (schema dst = schema src)); [|done].
  destruct (mergeTables dst src) as [ts|]; simpl; [|done].
  by intros [= <-].
Qed.

(** A merge succeeds only between indexes of one schema. *)
Lemma merge_same_schema dst src d :
  merge dst src = Ok d → schema dst = schema src.
Proof.
  unfold merge. destruct (readonly dst); [done|].
  by destruct (decide (schema dst = schema src)).
Qed.

(** A merge into a read-only index and a merge against another schema
    fail. *)
Lemma merge_readonly_fails dst src :
  readonly dst = true → merge dst src = Err StateError.
Proof. intros H. unfold merge. by rewrite H. Qed.

Lemma merge_mismatch_fails dst src :
  readonly dst = false → schema dst ≠ schema src →
  merge dst src = Err SchemaMismatch.
Proof.
  intros H Hne. unfold merge. rewrite H. by rewrite decide_False.
Qed.

(** The column schema of a merged table is the destination's. *)
Lemma mergeTable_columns tr src name dt t :
  mergeTable tr src name dt = Ok t → columns t = columns dt.
Proof.
  unfold mergeTable. destruct (tables src !! name) as [st|].
  - destruct (decide (columns dt = columns st)); [|done].
    destruct (mapR _ _); simpl; [|done]. by intros [= <-].
  - by intros [= <-].
Qed.

Lemma merge_columns dst src d :
  merge dst src = Ok d → columns <$> tables d = columns <$> tables dst.
Proof.
  intros H. apply map_eq. intros name. rewrite !lookup_fmap.
  pose proof (merge_tables_lookup _ _ _ name H) as Hn.
  destruct (tables dst !! name) as [dt|].
  - destruct Hn as (t & Ht & ->). simpl. f_equal.
    by eapply mergeTable_columns.
  - by rewrite Hn.
Qed.

Lemma merge_registered dst src d name :
  merge dst src = Ok d →
  is_Some (tables d !! name) ↔ is_Some (tables dst !! name).
Proof.
  intros H. pose proof (merge_tables_lookup _ _ _ name H) as Hn.
  destruct (tables dst !! name) as [dt|].
  - destruct Hn as (t & _ & ->). split; eauto.
  - rewrite Hn. done.
Qed.

(** *** The logical content of a merged index *)

Lemma omap_resolve_extends a b cols rws :
  extends (stringTables a) (stringTables b) →
  Forall (λ row, is_Some (resolveRow a cols row)) rws →
  omap (resolveRow b cols) rws = omap (resolveRow a cols) rws ∧
  Forall (λ row, is_Some (resolveRow b cols row)) rws.
Proof.
  intros Hext. induction 1 as [|row rws [tup Htup] _ [IH1 IH2]]; [done|].
  simpl. rewrite Htup, (resolveRow_extends _ _ _ _ _ Hext Htup).
  split; [f_equal; exact IH1|]. constructor; [|done].
  rewrite (resolveRow_extends _ _ _ _ _ Hext Htup). eauto.
Qed.

Lemma omap_resolve_translated dst src d cols rws rs :
  stringTables d = mergeStrings dst src →
  Forall2 (λ row row', translateRow (translation dst src) cols row = Ok row')
          rws rs →
  omap (resolveRow d cols) rs = omap (resolveRow src cols) rws ∧
  Forall (λ row, is_Some (resolveRow d cols row)) rs ∧
  Forall (λ row, is_Some (resolveRow src cols row)) rws.
Proof.
  intros Hd. induction 1 as [|row row' rws rs Hrow _ (IH1 & IH2 & IH3)];
    [done|].
  apply (translateRow_resolve dst src d Hd) in Hrow as (tup & Hs & Ht).
  simpl. rewrite Hs, Ht.
  split_and!; [f_equal; exact IH1| |]; constructor; done.
Qed.

(** The rows of a table of the merged index, joined with their strings,
    are those of the destination followed by those of the source. *)
Lemma merge_resolvedRows dst src d name :
  rowsResolve dst →
  merge dst src = Ok d →
  resolvedRows d name =
    resolvedRows dst name ++
    match tables dst !! name with
    | Some _ => resolvedRows src name
    | None => []
    end.
Proof.
  intros Hwf H.
  pose proof (merge_stringTables _ _ _ H) as Hstr.
  assert (Hext : extends (stringTables dst) (stringTables d)).
  { rewrite Hstr. apply mergeStrings_extends. }
  pose proof (merge_tables_lookup _ _ _ name H) as Hn.
  unfold resolvedRows.
  destruct (tables dst !! name) as [dt|] eqn:Hdt; [|by rewrite Hn].
  destruct Hn as (t & Ht & ->).
  pose proof (omap_resolve_extends _ _ _ _ Hext (Hwf _ _ Hdt)) as [Hold _].
  revert Ht. unfold mergeTable.
  destruct (tables src !! name) as [st|].
  - destruct (decide (columns dt = columns st)) as [Hcols|]; [|done].
    destruct (mapR _ (rows st)) as [rs|] eqn:Hrs; simpl; [|done].
    intros [= <-]. simpl. apply mapR_Ok in Hrs.
    rewrite omap_app, Hold. f_equal.
    rewrite Hcols.
    by apply (omap_resolve_translated dst src d) in Hrs as (-> & _).
  - intros [= <-]. by rewrite Hold, app_nil_r.
Qed.

Lemma merge_rowsResolve dst src d :
  rowsResolve dst → merge dst src = Ok d → rowsResolve d.
Proof.
  intros Hwf H name t Ht.
  pose proof (merge_stringTables _ _ _ H) as Hstr.
  assert (Hext : extends (stringTables dst) (stringTables d)).
  { rewrite Hstr. apply mergeStrings_extends. }
  pose proof (merge_tables_lookup _ _ _ name H) as Hn.
  destruct (tables dst !! name) as [dt|] eqn:Hdt; [|congruence].
  destruct Hn as (t' & Hm & Ht'). rewrite Ht in Ht'. injection Ht' as <-.
  pose proof (omap_resolve_extends _ _ _ _ Hext (Hwf _ _ Hdt)) as [_ Hold].
  revert Hm. unfold mergeTable.
  destruct (tables src !! name) as [st|].
  - destruct (decide (columns dt = columns st)) as [Hcols|]; [|done].
    destruct (mapR _ (rows st)) as [rs|] eqn:Hrs; simpl; [|done].
    intros [= <-]. simpl. apply mapR_Ok in Hrs.
    apply Forall_app. split; [done|].
    rewrite Hcols.
    by apply (omap_resolve_translated dst src d) in Hrs as (_ & ? & _).
  - by intros [= <-].
Qed.

(** The logical content after a merge: the destination's facts, and the
    source's facts of every table registered in the destination. *)
Lemma merge_facts dst src d name tup :
  rowsResolve dst →
  merge dst src = Ok d →
  Fact d name tup ↔
    Fact dst name tup ∨ (is_Some (tables dst !! name) ∧ Fact src name tup).
Proof.
  intros Hwf H. unfold Fact.
  rewrite (merge_resolvedRows _ _ _ name Hwf H), elem_of_app.
  destruct (tables dst !! name) as [dt|].
  - split; [intros [?|?]; eauto|intros [?|[_ ?]]; eauto].
  - rewrite elem_of_nil. split; [intros [?|[]]; eauto|].
    intros [?|[[? [=]] _]]. eauto.
Qed.

Lemma mergeAll_facts srcs : ∀ dst d name tup,
  rowsResolve dst →
  mergeAll dst srcs = Ok d →
  Fact d name tup ↔
    Fact dst name tup ∨
    (is_Some (tables dst !! name) ∧ ∃ src, src ∈ srcs ∧ Fact src name tup).
Proof.
  induction srcs as [|src rest IH]; intros dst d name tup Hwf; simpl.
  - intros [= <-]. split; [eauto|]. intros [?|(_ & ? & []%elem_of_nil & _)].
    done.
  - destruct (merge dst src) as [d1|] eqn:H1; simpl; [|done].
    intros Hrest.
    rewrite (IH d1 d name tup (merge_rowsResolve _ _ _ Hwf H1) Hrest).
    rewrite (merge_facts _ _ _ name tup Hwf H1).
    rewrite (merge_registered _ _ _ name H1).
    split.
    + intros [[H|[Hreg H]]|[Hreg (s & Hin & H)]]; [by left|..].
      * right. split; [done|]. exists src. split; [by left|done].
      * right. split; [done|]. exists s. split; [by right|done].
    + intros [H|[Hreg (s & Hin & H)]]; [by left; left|].
      apply elem_of_cons in Hin as [->|Hin].
      * left. right. done.
      * right. split; [done|]. exists s. done.
Qed.

(** *** When a merge succeeds *)

Lemma mapR_total {A B} (f : A → Result B) (l : list A) :
  Forall (λ a, ∃ b, f a = Ok b) l → ∃ l', mapR f l = Ok l'.
Proof.
  induction 1 as [|a l [b Hb] _ [l' IH]]; simpl; [by eexists|].
  rewrite Hb. simpl. rewrite IH. simpl. by eexists.
Qed.

Lemma merge_total dst src :
  readonly dst = false →
  closedSchema dst →
  rowsResolve src →
  schema src = schema dst →
  ∃ d, merge dst src = Ok d.
Proof.
  intros Hro Hclosed Hsrc Hschema. unfold merge. rewrite Hro.
  rewrite decide_True by done.
  destruct (mapR_entries_total
              (mergeTable (translation dst src) src) (tables dst))
    as [ts Hts].
  - intros name dt Hdt. unfold mergeTable.
    destruct (tables src !! name) as [st|] eqn:Hst; [|by eexists].
    assert (Hcompat : columns dt = columns st).
    { injection Hschema as _ Hcols.
      apply (f_equal (λ m, m !! name)) in Hcols.
      rewrite !lookup_fmap, Hdt, Hst in Hcols. simpl in Hcols. congruence. }
    rewrite decide_True by done.
    destruct (mapR_total (translateRow (translation dst src) (columns st))
                (rows st)) as [rs Hrs].
    + eapply Forall_impl; [exact (Hsrc _ _ Hst)|].
      intros row Hrow. apply translateRow_total; [|done].
      rewrite <- Hcompat. exact (Hclosed _ _ Hdt).
    + rewrite Hrs. simpl. by eexists.
  - unfold mergeTables. rewrite Hts. simpl. by eexists.
Qed.

Lemma merge_closedSchema dst src d :
  closedSchema dst → merge dst src = Ok d → closedSchema d.
Proof.
  intros Hclosed H name t Ht.
  pose proof (merge_tables_lookup _ _ _ name H) as Hn.
  destruct (tables dst !! name) as [dt|] eqn:Hdt; [|congruence].
  destruct Hn as (t' & Hm & Ht'). rewrite Ht in Ht'. injection Ht' as <-.
  rewrite (mergeTable_columns _ _ _ _ _ Hm).
  eapply Forall_impl; [exact (Hclosed _ _ Hdt)|].
  intros col Hcol Hne. destruct (Hcol Hne) as [strs Hstrs].
  destruct (mergeStrings_extends dst src _ _ Hstrs) as (strs' & Hs' & _).
  rewrite (merge_stringTables _ _ _ H). eauto.
Qed.

(** A merge leaves the schema of the destination as it was. *)
Lemma merge_schema dst src d :
  merge dst src = Ok d → schema d = schema dst.
Proof.
  intros H. unfold schema. f_equal; [|by eapply merge_columns].
  apply set_eq. intros name. rewrite !elem_of_dom.
  rewrite (merge_stringTables _ _ _ H), mergeStrings_lookup.
  by rewrite fmap_is_Some.
Qed.

Lemma mergeAll_total srcs : ∀ dst,
  readonly dst = false →
  closedSchema dst →
  Forall (λ src, rowsResolve src ∧ schema src = schema dst) srcs →
  ∃ d, mergeAll dst srcs = Ok d.
Proof.
  induction srcs as [|src rest IH]; intros dst Hro Hclosed Hall; simpl.
  - by eexists.
  - inversion Hall as [|? ? [Hsrc Hschema] Hrest]; subst.
    destruct (merge_total dst src Hro Hclosed Hsrc Hschema) as [d1 H1].
    rewrite H1. simpl. apply IH.
    + by apply merge_readonly in H1 as [_ ?].
    + by eapply merge_closedSchema.
    + eapply Forall_impl; [exact Hrest|].
      intros s [? ?]. split; [done|].
      by rewrite (merge_schema _ _ _ H1).
Qed.

Lemma noRows_rowsResolve idx : noRows idx → rowsResolve idx.
Proof.
  intros Hno name t Ht. rewrite (Hno _ _ Ht). constructor.
Qed.

Lemma noRows_no_fact idx name tup : noRows idx → ¬ Fact idx name tup.
Proof.
  intros Hno. unfold Fact, resolvedRows.
  destruct (tables idx !! name) as [t|] eqn:Ht; [|apply not_elem_of_nil].
  rewrite (Hno _ _ Ht). simpl. apply not_elem_of_nil.
Qed.

(** Sequences with the same multiset of logical contents offer the same
    facts. *)
Lemma sameContents_facts l1 l2 name tup :
  sameContents l1 l2 →
  (∃ src, src ∈ l1 ∧ Fact src name tup) ↔
  (∃ src, src ∈ l2 ∧ Fact src name tup).
Proof.
  intros (l2' & Hperm & Hall).
  transitivity (∃ src, src ∈ l2' ∧ Fact src name tup).
  - clear Hperm. induction Hall as [|a b l l' Hab _ IH].
    + split; intros (? & []%elem_of_nil & _).
    + setoid_rewrite elem_of_cons. specialize (Hab name tup).
      split.
      * intros (s & [->|Hin] & Hs).
        -- exists b. split; [by left|]. by apply Hab.
        -- destruct (proj1 IH) as (s' & Hin' & Hs'); [eauto|].
           exists s'. eauto.
      * intros (s & [->|Hin] & Hs).
        -- exists a. split; [by left|]. by apply Hab.
        -- destruct (proj2 IH) as (s' & Hin' & Hs'); [eauto|].
           exists s'. eauto.
  - by setoid_rewrite Hperm.
Qed.

End indexdb_facts.

(** * Properties of the extraction *)

Lemma newIndex_value : newIndex = Ok (fileIndex [] [] [] [] [] false).
Proof. reflexivity. Qed.

Section FileIndex.

Variables (paths kinds usrs : list string) (refRows locRows : list Row).

Lemma insert_usr s :
  insert "usr" s (fileIndex paths kinds usrs refRows locRows false) =
  Ok ((internString s usrs).1,
      fileIndex paths kinds (internString s usrs).2 refRows locRows false).
Proof.
  unfold insert. simpl readonly. cbv iota.
  change (stringTables (fileIndex paths kinds usrs refRows locRows false)
            !! "usr") with (Some usrs).
  cbv beta iota. destruct (internString s usrs) as [id usrs']. reflexivity.
Qed.

Lemma insert_path s :
  insert "path" s (fileIndex paths kinds usrs refRows locRows false) =
  Ok ((internString s paths).1,
      fileIndex (internString s paths).2 kinds usrs refRows locRows false).
Proof.
  unfold insert. simpl readonly. cbv iota.
  change (stringTables (fileIndex paths kinds usrs refRows locRows false)
            !! "path") with (Some paths).
  cbv beta iota. destruct (internString s paths) as [id paths']. reflexivity.
Qed.

Lemma insert_kind s :
  insert "kind" s (fileIndex paths kinds usrs refRows locRows false) =
  Ok ((internString s kinds).1,
      fileIndex paths (internString s kinds).2 usrs refRows locRows false).
Proof.
  unfold insert. simpl readonly. cbv iota.
  change (stringTables (fileIndex paths kinds usrs refRows locRows false)
            !! "kind") with (Some kinds).
  cbv beta iota. destruct (internString s kinds) as [id kinds']. reflexivity.
Qed.

Lemma add_ref a b c d e :
  add "ref" [a; b; c; d; e]
      (fileIndex paths kinds usrs refRows locRows false) =
  Ok (fileIndex paths kinds usrs (refRows ++ [[a; b; c; d; e]]) locRows false).
Proof. reflexivity. Qed.

Lemma add_loc a b c d :
  add "loc" [a; b; c; d]
      (fileIndex paths kinds usrs refRows locRows false) =
  Ok (fileIndex paths kinds usrs refRows (locRows ++ [[a; b; c; d]]) false).
Proof. reflexivity. Qed.

End FileIndex.

(** ** One call of the visitor *)

Section Visitor.

Variables (cursor parent : CXCursor).
Variables (paths kinds usrs : list string) (refRows locRows : list Row).

Let line := cursorLine (cursorData cursor).
Let column := cursorColumn (cursorData cursor).
Let usr := internString (resolvedUSR cursor) usrs.
Let file :=
  internString (nullToBlank (cursorFileName (cursorData cursor))) paths.
Let kind :=
  internString (nullToBlank (cursorKindSpelling (cursorData cursor))) kinds.

(** On an extraction in progress the visitor never fails and always asks
    to recurse; for a cursor with a USR it interns three strings and
    appends one row to each table, otherwise it changes nothing. *)
Lemma visitor_extracting :
  visitor cursor parent
    (indexerOn (fileIndex paths kinds usrs refRows locRows false)) =
  Ok (CXChildVisit_Recurse,
      if decide (resolvedUSR cursor ≠ "") then
        indexerOn
          (fileIndex file.2 kind.2 usr.2
             (refRows ++ [[usr.1; file.1; line; column; kind.1]])
             (locRows ++ [[file.1; line; column; usr.1]])
             false)
      else indexerOn (fileIndex paths kinds usrs refRows locRows false)).
Proof.
  unfold visitor. destruct (decide (resolvedUSR cursor ≠ "")); [|done].
  unfold indexerOn. cbn [index usrStringTable pathStringTable
    kindStringTable refTable locTable].
  rewrite insert_usr. cbn [mbind Result_bind fst snd].
  rewrite insert_path. cbn [mbind Result_bind fst snd].
  rewrite insert_kind. cbn [mbind Result_bind fst snd].
  rewrite add_ref. cbn [mbind Result_bind].
  rewrite add_loc. cbn [mbind Result_bind].
  reflexivity.
Qed.

End Visitor.

Lemma visitor_parent cursor parent parent' ix :
  visitor cursor parent ix = visitor cursor parent' ix.
Proof. reflexivity. Qed.

Lemma visited_extracting cursor ix :
  extracting ix → extracting (visited cursor ix).
Proof.
  intros (ps & ks & us & rr & lr & ->). unfold visited.
  rewrite visitor_extracting.
  destruct (decide (resolvedUSR cursor ≠ "")); unfold extracting; eauto 10.
Qed.

Lemma visitor_visited cursor parent ix :
  extracting ix →
  visitor cursor parent ix = Ok (CXChildVisit_Recurse, visited cursor ix).
Proof.
  intros (ps & ks & us & rr & lr & ->). unfold visited.
  by rewrite !visitor_extracting.
Qed.

(** ** The traversal *)

Lemma clang_visitChildren_unfold {S : Type}
    (v : CXCursor → CXCursor → S → Result (CXChildVisitResult * S))
    (parent : CXCursor) (s : S) :
  clang_visitChildren v parent s =
  visitSiblings v parent (cursorChildren parent) s.
Proof.
  destruct parent as [d r cs]. simpl.
  generalize (mkCursor d r cs) as parent. revert s.
  induction cs as [|c cs IH]; intros s parent; simpl; [done|].
  destruct (v c parent s) as [[[] s1]|]; try done.
  destruct (clang_visitChildren v c s1) as [[[] s2]|]; done.
Qed.

Lemma preorder_unfold (c : CXCursor) :
  preorder c = c :: preorderForest (cursorChildren c).
Proof.
  destruct c as [d r cs]. simpl. f_equal. unfold preorderForest.
  induction cs as [|c cs IH]; simpl; [done|]. by rewrite IH.
Qed.

Lemma preorderForest_cons c cs :
  preorderForest (c :: cs) =
  c :: preorderForest (cursorChildren c) ++ preorderForest cs.
Proof. unfold preorderForest at 1. simpl. by rewrite preorder_unfold. Qed.

Section Traversal.

Context {S : Type}.
Variable v : CXCursor → CXCursor → S → Result (CXChildVisitResult * S).
Variable step : CXCursor → S → S.
Variable P : S → Prop.

(** The visitor never fails, keeps the invariant and always recurses. *)
Hypothesis v_recurses : ∀ c p s,
  P s → v c p s = Ok (CXChildVisit_Recurse, step c s) ∧ P (step c s).

Lemma visitSiblings_all parent cs :
  Forall (λ c, ∀ s, P s →
            clang_visitChildren v c s =
              Ok (false, steps step s (preorderForest (cursorChildren c))) ∧
            P (steps step s (preorderForest (cursorChildren c)))) cs →
  ∀ s, P s →
    visitSiblings v parent cs s = Ok (false, steps step s (preorderForest cs)) ∧
    P (steps step s (preorderForest cs)).
Proof.
  induction 1 as [|c cs Hc _ IH]; intros s Hs; simpl; [done|].
  destruct (v_recurses c parent s Hs) as [-> Hs1].
  destruct (Hc _ Hs1) as [-> Hs2].
  rewrite preorderForest_cons. unfold steps in *. simpl.
  rewrite foldl_app. by apply IH.
Qed.

(** With such a visitor the traversal reaches every cursor below the
    parent, each exactly once, parents before children and siblings in
    order, and is never cut short. *)
Lemma clang_visitChildren_all parent : ∀ s,
  P s →
  clang_visitChildren v parent s =
    Ok (false, steps step s (preorderForest (cursorChildren parent))) ∧
  P (steps step s (preorderForest (cursorChildren parent))).
Proof.
  induction parent as [d r cs IH] using CXCursor_ind. intros s Hs.
  rewrite clang_visitChildren_unfold. by apply visitSiblings_all.
Qed.

End Traversal.

(** ** One extraction task *)

Lemma steps_visited cs : ∀ paths kinds usrs refRows locRows,
  ∃ paths' kinds' usrs' refRows' locRows',
    steps visited
      (indexerOn (fileIndex paths kinds usrs refRows locRows false)) cs =
    indexerOn (fileIndex paths' kinds' usrs' refRows' locRows' false) ∧
    length refRows' = length refRows + length (emitting cs) ∧
    length locRows' = length locRows + length (emitting cs) ∧
    (Forall2 alignedRows refRows locRows →
     Forall2 alignedRows refRows' locRows').
Proof.
  induction cs as [|c cs IH]; intros ps ks us rr lr.
  - exists ps, ks, us, rr, lr. simpl. split_and!; [done|lia|lia|done].
  - unfold steps. simpl. unfold visited at 2. rewrite visitor_extracting.
    unfold emitting. rewrite filter_cons.
    destruct (decide (resolvedUSR c ≠ "")) as [Hne|He].
    + match goal with
      | |- context [indexerOn (fileIndex ?p ?k ?u ?r ?l false)] =>
          destruct (IH p k u r l)
            as (ps' & ks' & us' & rr' & lr' & Hst & Hr & Hl & Hal)
      end.
      exists ps', ks', us', rr', lr'. unfold steps in Hst.
      rewrite length_app in Hr, Hl. simpl in *.
      split_and!; [exact Hst|unfold emitting in *; lia
                  |unfold emitting in *; lia|].
      intros H0. apply Hal. apply Forall2_app; [done|].
      constructor; [|constructor]. unfold alignedRows. eauto 10.
    + destruct (IH ps ks us rr lr)
        as (ps' & ks' & us' & rr' & lr' & Hst & Hr & Hl & Hal).
      exists ps', ks', us', rr', lr'. eauto.
Qed.

Lemma steps_logged cs : ∀ (ix : TUIndexer) (log : list CXCursor),
  steps (λ c sl, (visited c sl.1, sl.2 ++ [c])) (ix, log) cs =
  (steps visited ix cs, log ++ cs).
Proof.
  induction cs as [|c cs IH]; intros ix log; unfold steps in *; simpl.
  - by rewrite app_nil_r.
  - rewrite IH. by rewrite <- app_assoc.
Qed.

(** The traversal started by [indexSourceFile] calls the visitor on every
    cursor below the root, in depth-first pre-order. *)
Lemma traversal_visits_all parent ix log :
  extracting ix →
  clang_visitChildren (logged visitor) parent (ix, log) =
  Ok (false,
      (steps visited ix (preorderForest (cursorChildren parent)),
       log ++ preorderForest (cursorChildren parent))).
Proof.
  intros Hix.
  destruct (clang_visitChildren_all (logged visitor)
              (λ c sl, (visited c sl.1, sl.2 ++ [c]))
              (λ sl, extracting sl.1)) with (parent := parent) (s := (ix, log))
    as [-> _]; [|done|by rewrite steps_logged].
  intros c p [ix' log'] Hix'. simpl in *. split.
  - unfold logged. simpl. by rewrite (visitor_visited c p ix' Hix').
  - by apply visited_extracting.
Qed.

Lemma traversal_result parent ix :
  extracting ix →
  clang_visitChildren visitor parent ix =
  Ok (false, steps visited ix (preorderForest (cursorChildren parent))).
Proof.
  intros Hix.
  destruct (clang_visitChildren_all visitor visited extracting)
    with (parent := parent) (s := ix) as [-> _]; [|done|done].
  intros c p ix' Hix'. split.
  - by apply visitor_visited.
  - by apply visited_extracting.
Qed.

Section Task.

Variable clang_parseTranslationUnit :
  string → list string → option CXTranslationUnit.

Lemma indexSourceFile_failure sfi :
  clang_parseTranslationUnit (path sfi) (compilerArgs sfi) = None →
  indexSourceFile clang_parseTranslationUnit sfi =
  ([parseError sfi], Ok (fileIndex [] [] [] [] [] false)).
Proof. unfold indexSourceFile. by intros ->. Qed.

Lemma indexSourceFile_success sfi tu :
  clang_parseTranslationUnit (path sfi) (compilerArgs sfi) = Some tu →
  indexSourceFile clang_parseTranslationUnit sfi =
  ([],
   Ok (setReadOnly
         (index (steps visited
                   (indexerOn (fileIndex [] [] [] [] [] false))
                   (preorderForest (tuTopLevel tu)))))).
Proof.
  unfold indexSourceFile. intros ->. f_equal.
  rewrite newIndex_value. cbn [mbind Result_bind].
  change (stringTable "path" (fileIndex [] [] [] [] [] false))
    with (Ok (A := string) "path").
  change (stringTable "kind" (fileIndex [] [] [] [] [] false))
    with (Ok (A := string) "kind").
  change (stringTable "usr" (fileIndex [] [] [] [] [] false))
    with (Ok (A := string) "usr").
  change (table "ref" (fileIndex [] [] [] [] [] false))
    with (Ok (A := string) "ref").
  change (table "loc" (fileIndex [] [] [] [] [] false))
    with (Ok (A := string) "loc").
  cbn [mbind Result_bind].
  fold (indexerOn (fileIndex [] [] [] [] [] false)).
  rewrite traversal_result by (unfold extracting; eauto 10).
  reflexivity.
Qed.

(** Every task returns an index with the schema of [newIndex]. *)
Lemma indexSourceFile_fileIndex sfi :
  ∃ paths kinds usrs refRows locRows ro,
    snd (indexSourceFile clang_parseTranslationUnit sfi) =
      Ok (fileIndex paths kinds usrs refRows locRows ro) ∧
    Forall2 alignedRows refRows locRows.
Proof.
  destruct (clang_parseTranslationUnit (path sfi) (compilerArgs sfi))
    as [tu|] eqn:Hparse.
  - rewrite (indexSourceFile_success _ _ Hparse). simpl.
    destruct (steps_visited (preorderForest (tuTopLevel tu)) [] [] [] [] [])
      as (ps & ks & us & rr & lr & -> & _ & _ & Hal).
    exists ps, ks, us, rr, lr, true. split; [done|]. apply Hal. constructor.
  - rewrite (indexSourceFile_failure _ Hparse). simpl.
    exists [], [], [], [], [], false. split; [done|constructor].
Qed.

End Task.

(** ** The facts of one cursor *)

Lemma tableRows_ref ps ks us rr lr ro :
  tableRows (fileIndex ps ks us rr lr ro) "ref" = rr.
Proof. reflexivity. Qed.

Lemma tableRows_loc ps ks us rr lr ro :
  tableRows (fileIndex ps ks us rr lr ro) "loc" = lr.
Proof. reflexivity. Qed.

Lemma resolve_refRow ps ks us rr lr ro u f l c k su sf sk :
  us !! N.to_nat u = Some su →
  ps !! N.to_nat f = Some sf →
  ks !! N.to_nat k = Some sk →
  resolveRow (fileIndex ps ks us rr lr ro) refColumns [u; f; l; c; k] =
  Some [CStr su; CStr sf; CRaw l; CRaw c; CStr sk].
Proof.
  intros Hu Hf Hk. unfold refColumns, resolveRow, resolveCell.
  change (stringTables (fileIndex ps ks us rr lr ro) !! "usr") with (Some us).
  change (stringTables (fileIndex ps ks us rr lr ro) !! "path") with (Some ps).
  change (stringTables (fileIndex ps ks us rr lr ro) !! "kind") with (Some ks).
  simpl. rewrite Hu, Hf, Hk. reflexivity.
Qed.

Lemma resolve_locRow ps ks us rr lr ro u f l c su sf :
  us !! N.to_nat u = Some su →
  ps !! N.to_nat f = Some sf →
  resolveRow (fileIndex ps ks us rr lr ro) locColumns [f; l; c; u] =
  Some [CStr sf; CRaw l; CRaw c; CStr su].
Proof.
  intros Hu Hf. unfold locColumns, resolveRow, resolveCell.
  change (stringTables (fileIndex ps ks us rr lr ro) !! "usr") with (Some us).
  change (stringTables (fileIndex ps ks us rr lr ro) !! "path") with (Some ps).
  simpl. rewrite Hu, Hf. reflexivity.
Qed.

Lemma interned s strs :
  (internString s strs).2 !! N.to_nat (internString s strs).1 = Some s.
Proof.
  pose proof (surjective_pairing (internString s strs)) as H.
  by apply indexdb_facts.internString_spec in H as (_ & ? & _).
Qed.

(** The rows appended for a cursor with a USR, raw and resolved. *)
Lemma visitor_rows cursor parent ix :
  extracting ix →
  resolvedUSR cursor ≠ "" →
  ∃ ix' usrID fileNameID kindID,
    visitor cursor parent ix = Ok (CXChildVisit_Recurse, ix') ∧
    extracting ix' ∧
    tableRows (index ix') "ref" =
      tableRows (index ix) "ref" ++
      [[usrID; fileNameID; cursorLine (cursorData cursor);
        cursorColumn (cursorData cursor); kindID]] ∧
    tableRows (index ix') "loc" =
      tableRows (index ix) "loc" ++
      [[fileNameID; cursorLine (cursorData cursor);
        cursorColumn (cursorData cursor); usrID]] ∧
    (stringTables (index ix') !! "usr") ≫= (.!! N.to_nat usrID) =
      Some (resolvedUSR cursor) ∧
    (stringTables (index ix') !! "path") ≫= (.!! N.to_nat fileNameID) =
      Some (nullToBlank (cursorFileName (cursorData cursor))) ∧
    (stringTables (index ix') !! "kind") ≫= (.!! N.to_nat kindID) =
      Some (nullToBlank (cursorKindSpelling (cursorData cursor))) ∧
    emits ix ix'
      [CStr (resolvedUSR cursor);
       CStr (nullToBlank (cursorFileName (cursorData cursor)));
       CRaw (cursorLine (cursorData cursor));
       CRaw (cursorColumn (cursorData cursor));
       CStr (nullToBlank (cursorKindSpelling (cursorData cursor)))]
      [CStr (nullToBlank (cursorFileName (cursorData cursor)));
       CRaw (cursorLine (cursorData cursor));
       CRaw (cursorColumn (cursorData cursor));
       CStr (resolvedUSR cursor)].
Proof.
  intros (ps & ks & us & rr & lr & ->) Hne.
  rewrite visitor_extracting, decide_True by done.
  set (u := internString (resolvedUSR cursor) us).
  set (f := internString (nullToBlank (cursorFileName (cursorData cursor))) ps).
  set (k := internString
              (nullToBlank (cursorKindSpelling (cursorData cursor))) ks).
  eexists _, u.1, f.1, k.1. split; [reflexivity|].
  pose proof (interned (resolvedUSR cursor) us) as Hu.
  pose proof (interned (nullToBlank (cursorFileName (cursorData cursor))) ps)
    as Hf.
  pose proof (interned
                (nullToBlank (cursorKindSpelling (cursorData cursor))) ks)
    as Hk.
  fold u in Hu. fold f in Hf. fold k in Hk.
  split_and!.
  - unfold extracting. eauto 10.
  - reflexivity.
  - reflexivity.
  - exact Hu.
  - exact Hf.
  - exact Hk.
  - eexists _, _. split_and!; [reflexivity|reflexivity| |].
    + by apply resolve_refRow.
    + by apply resolve_locRow.
Qed.

(** ** Indexes with the schema of [newIndex] can be merged *)

Section FileIndexSchema.

Variables (paths kinds usrs : list string) (refRows locRows : list Row).
Variable ro : bool.

Let idx := fileIndex paths kinds usrs refRows locRows ro.

Lemma fileIndex_tables (Q : string → Table → Prop) :
  map_Forall Q (tables idx) ↔
  Q "ref" (mkTable refColumns refRows) ∧ Q "loc" (mkTable locColumns locRows).
Proof.
  unfold idx, fileIndex. simpl.
  rewrite map_Forall_insert by reflexivity.
  rewrite map_Forall_insert by reflexivity.
  pose proof (map_Forall_empty (M := gmap string) Q). tauto.
Qed.

Lemma closedSchema_fileIndex : closedSchema idx.
Proof.
  apply fileIndex_tables. simpl. unfold refColumns, locColumns.
  split;
    repeat (apply List.Forall_cons;
            [intros H; first [by destruct H|exact (mk_is_Some _ _ eq_refl)]|]);
    apply List.Forall_nil.
Qed.

Lemma rowsResolve_fileIndex :
  rowsResolve idx ↔
  Forall (λ row, is_Some (resolveRow idx refColumns row)) refRows ∧
  Forall (λ row, is_Some (resolveRow idx locColumns row)) locRows.
Proof. unfold rowsResolve. by rewrite fileIndex_tables. Qed.

End FileIndexSchema.

Lemma extends_fileIndex ps ks us rr lr ro ps' ks' us' rr' lr' ro' :
  ps `prefix_of` ps' → ks `prefix_of` ks' → us `prefix_of` us' →
  extends (stringTables (fileIndex ps ks us rr lr ro))
          (stringTables (fileIndex ps' ks' us' rr' lr' ro')).
Proof.
  intros Hp Hk Hu name strs. unfold fileIndex. simpl.
  rewrite !lookup_insert.
  repeat case_decide; subst; try (intros [= <-]; eauto); done.
Qed.

Lemma internString_prefix s strs : strs `prefix_of` (internString s strs).2.
Proof.
  pose proof (surjective_pairing (internString s strs)) as H.
  by apply indexdb_facts.internString_spec in H as (? & _).
Qed.

Lemma resolves_extends a b cols rws :
  extends (stringTables a) (stringTables b) →
  Forall (λ row, is_Some (resolveRow a cols row)) rws →
  Forall (λ row, is_Some (resolveRow b cols row)) rws.
Proof.
  intros Hext H.
  by apply (indexdb_facts.omap_resolve_extends a b cols rws Hext) in H as [_ ?].
Qed.

Lemma visited_rowsResolve cursor ix :
  extracting ix → rowsResolve (index ix) →
  rowsResolve (index (visited cursor ix)).
Proof.
  intros (ps & ks & us & rr & lr & ->) Hwf. unfold visited.
  rewrite visitor_extracting.
  destruct (decide (resolvedUSR cursor ≠ "")) as [Hne|]; [|done].
  unfold indexerOn in *. simpl index in *.
  apply rowsResolve_fileIndex in Hwf as [Href Hloc].
  apply rowsResolve_fileIndex.
  set (u := internString (resolvedUSR cursor) us).
  set (f := internString (nullToBlank (cursorFileName (cursorData cursor))) ps).
  set (k := internString
              (nullToBlank (cursorKindSpelling (cursorData cursor))) ks).
  assert (Hext : extends
            (stringTables (fileIndex ps ks us rr lr false))
            (stringTables (fileIndex f.2 k.2 u.2
               (rr ++ [[u.1; f.1; cursorLine (cursorData cursor);
                        cursorColumn (cursorData cursor); k.1]])
               (lr ++ [[f.1; cursorLine (cursorData cursor);
                        cursorColumn (cursorData cursor); u.1]]) false))).
  { apply extends_fileIndex; apply internString_prefix. }
  split; apply Forall_app; split.
  - by eapply resolves_extends.
  - constructor; [|constructor].
    erewrite resolve_refRow; [by eexists|apply interned..].
  - by eapply resolves_extends.
  - constructor; [|constructor].
    erewrite resolve_locRow; [by eexists|apply interned..].
Qed.

Lemma steps_visited_rowsResolve cs : ∀ ix,
  extracting ix → rowsResolve (index ix) →
  rowsResolve (index (steps visited ix cs)).
Proof.
  induction cs as [|c cs IH]; intros ix Hix Hwf; [done|].
  unfold steps in *. simpl. apply IH.
  - by apply visited_extracting.
  - by apply visited_rowsResolve.
Qed.

Lemma rowsResolve_setReadOnly idx :
  rowsResolve idx → rowsResolve (setReadOnly idx).
Proof.
  intros H name t Ht. specialize (H name t Ht).
  eapply resolves_extends; [|exact H].
  intros n strs Hn. exists strs. done.
Qed.

(** The index returned by a task has the schema of [newIndex] and rows
    that all resolve: it can be merged. *)
Lemma indexSourceFile_mergeable
    (parse : string → list string → option CXTranslationUnit) sfi :
  ∃ paths kinds usrs refRows locRows ro,
    snd (indexSourceFile parse sfi) =
      Ok (fileIndex paths kinds usrs refRows locRows ro) ∧
    rowsResolve (fileIndex paths kinds usrs refRows locRows ro).
Proof.
  assert (H0 : rowsResolve (fileIndex [] [] [] [] [] false)).
  { apply rowsResolve_fileIndex. split; constructor. }
  assert (He : extracting (indexerOn (fileIndex [] [] [] [] [] false))).
  { exists [], [], [], [], []. reflexivity. }
  destruct (parse (path sfi) (compilerArgs sfi)) as [tu|] eqn:Hparse.
  - rewrite (indexSourceFile_success _ _ _ Hparse). simpl.
    pose proof (steps_visited_rowsResolve
                  (preorderForest (tuTopLevel tu)) _ He H0) as Hwf.
    destruct (steps_visited (preorderForest (tuTopLevel tu)) [] [] [] [] [])
      as (ps & ks & us & rr & lr & Hst & _).
    rewrite Hst in *. simpl index in *.
    exists ps, ks, us, rr, lr, true. split; [done|].
    by apply rowsResolve_setReadOnly in Hwf.
  - rewrite (indexSourceFile_failure _ _ Hparse). simpl.
    exists [], [], [], [], [], false. done.
Qed.

(** ** The pipeline *)

Lemma schema_fileIndex ps ks us rr lr ro :
  schema (fileIndex ps ks us rr lr ro) = fileSchema.
Proof. reflexivity. Qed.

Lemma schema_emptyIndex : schema emptyIndex = (∅, ∅).
Proof. unfold schema. simpl. by rewrite dom_empty_L, fmap_empty. Qed.

Lemma fileSchema_not_empty : fileSchema ≠ (∅, ∅).
Proof. intros [=]. Qed.

(** An index in which nothing is registered has not the schema of the
    per-file indexes: the merge of one of them into it fails. *)
Lemma merge_emptyIndex_fileIndex ps ks us rr lr ro :
  merge emptyIndex (fileIndex ps ks us rr lr ro) = Err SchemaMismatch.
Proof.
  apply indexdb_facts.merge_mismatch_fails; [reflexivity|].
  rewrite schema_emptyIndex, schema_fileIndex.
  intros H. by apply fileSchema_not_empty.
Qed.

Section PipelineFacts.

Variable parse : string → list string → option CXTranslationUnit.
Variable readFile : string → option Json.


Lemma collectLoop_emptyIndex sfis :
  collectLoop parse sfis emptyIndex =
  match sfis with
  | [] => ([], Ok emptyIndex)
  | sfi :: _ => ([path sfi], Err SchemaMismatch)
  end.
Proof.
  destruct sfis as [|sfi sfis]; [done|]. cbn [collectLoop].
  destruct (indexSourceFile_fileIndex parse sfi)
    as (ps & ks & us & rr & lr & ro & -> & _).
  cbn [mbind Result_bind]. by rewrite merge_emptyIndex_fileIndex.
Qed.

(** What [main] leaves behind, by the outcome of the dispatch loop: with
    no record to dispatch the global index is saved as it was built; with
    a record, the first merge into it fails. *)
Lemma main_outcome :
  main parse readFile =
  match dispatchLoop
          (jsonElements (default JNull (readFile "btrace.sources"))) with
  | ([], Ok _) =>
      {| exitCode := Some 0%Z;
         saved := Some ("index", setReadOnly emptyIndex);
         stdout := [];
         stderr := ∅;
         dispatched := [] |}
  | (sfi :: sfis, Ok _) =>
      {| exitCode := None; saved := None;
         stdout := [path sfi]; stderr := ∅; dispatched := sfi :: sfis |}
  | (sfis, Err _) =>
      {| exitCode := None; saved := None;
         stdout := []; stderr := ∅; dispatched := sfis |}
  end.
Proof.
  unfold main, readSourcesJsonFile, readSourcesJson.
  destruct (dispatchLoop _) as [sfis [[]|e]].
  - rewrite collectLoop_emptyIndex. by destruct sfis.
  - by destruct sfis.
Qed.

(** Whatever the descriptor and the frontend, the index that [main] saves
    has no string table and no table registered. *)
Lemma main_saved_unregistered name idx :
  saved (main parse readFile) = Some (name, idx) →
  stringTables idx = ∅ ∧ tables idx = ∅.
Proof.
  rewrite main_outcome.
  destruct (dispatchLoop _) as [[|sfi sfis] [[]|e]]; simpl; try done.
  by intros [= <- <-].
Qed.

End PipelineFacts.

(** ** The worker pool *)

Lemma mainEvents_app tr tr' :
  mainEvents (tr ++ tr') = mainEvents tr ++ mainEvents tr'.
Proof. apply List.filter_app. Qed.

Lemma submits_S k : submits (S k) = submits k ++ [EvSubmit k].
Proof. unfold submits. by rewrite seq_S, map_app. Qed.

Lemma rounds_S i : rounds (S i) = rounds i ++ round i.
Proof.
  unfold rounds. by rewrite seq_S, map_app, concat_app.
Qed.

Lemma submits_prefix k n : k ≤ n → submits k `prefix_of` submits n.
Proof.
  induction 1 as [|n _ IH]; [done|].
  rewrite submits_S. by apply prefix_app_r.
Qed.

Lemma rounds_prefix i n : i ≤ n → rounds i `prefix_of` rounds n.
Proof.
  induction 1 as [|n _ IH]; [done|].
  rewrite rounds_S. by apply prefix_app_r.
Qed.

(** Up to any point the main thread's events are a prefix of the
    schedule. *)
Lemma eventsAt_prefix n p :
  match p with
  | Dispatch k => k ≤ n
  | Await i => i ≤ n
  | Merging i _ => i < n
  | Deleting i => i < n
  | _ => True
  end →
  eventsAt n p `prefix_of` schedule n.
Proof.
  unfold schedule. destruct p as [k|i|i idx|i| |e]; simpl; intros H.
  - apply prefix_app_r. by apply submits_prefix.
  - apply prefix_app, rounds_prefix. done.
  - apply prefix_app. etrans; [|apply (rounds_prefix (S i)); lia].
    rewrite rounds_S. apply prefix_app. unfold round.
    by exists [EvMerge i; EvDelete i].
  - apply prefix_app. etrans; [|apply (rounds_prefix (S i)); lia].
    rewrite rounds_S. apply prefix_app. unfold round.
    by exists [EvDelete i].
  - done.
  - apply prefix_nil.
Qed.

Section Collect.

Variable parse : string → list string → option CXTranslationUnit.

Lemma collectLoop_snoc sfis : ∀ g0 g sfi fileIndex g',
  snd (collectLoop parse sfis g0) = Ok g →
  snd (indexSourceFile parse sfi) = Ok fileIndex →
  merge g fileIndex = Ok g' →
  snd (collectLoop parse (sfis ++ [sfi]) g0) = Ok g'.
Proof.
  induction sfis as [|x sfis IH]; intros g0 g sfi idx g' Hg Hidx Hm; simpl in *.
  - injection Hg as <-. rewrite Hidx. cbn [mbind Result_bind]. by rewrite Hm.
  - destruct (fileIndex ← (indexSourceFile parse x).2; merge g0 fileIndex)
      as [g1|]; [|done].
    destruct (collectLoop parse sfis g1) as [out r] eqn:Hrest. simpl in Hg.
    specialize (IH g1 g sfi idx g'). rewrite Hrest in IH.
    specialize (IH Hg Hidx Hm).
    by destruct (collectLoop parse (sfis ++ [sfi]) g1).
Qed.

Lemma collectLoop_stdout sfis : ∀ g0 g,
  snd (collectLoop parse sfis g0) = Ok g →
  collectLoop parse sfis g0 = (map path sfis, Ok g).
Proof.
  induction sfis as [|x sfis IH]; intros g0 g; simpl.
  - by intros [= <-].
  - destruct (fileIndex ← (indexSourceFile parse x).2; merge g0 fileIndex)
      as [g1|]; [|done].
    destruct (collectLoop parse sfis g1) as [out r] eqn:Hrest. simpl.
    intros ->. by rewrite (IH g1 g) in Hrest by (by rewrite Hrest);
      injection Hrest as <-.
Qed.

Variable sfis : list SourceFileInfo.
Variable g0 : Index.

Lemma poolInv_initial : poolInv parse sfis g0 (initial g0).
Proof.
  unfold poolInv, initial. simpl. split_and!; [done|lia|done|done|].
  by intros j st [=].
Qed.

Lemma poolInv_step s s' :
  poolInv parse sfis g0 s → step parse sfis s s' → poolInv parse sfis g0 s'.
Proof.
  intros Hinv Hstep. unfold poolInv in *.
  destruct Hstep as
    [k sfi fs g tr Hk | fs g tr | p j sfi fs g tr Hj Hsfi
    | i idx fs g tr Hi | i e fs g tr Hi | i idx fs g g' tr Hm
    | i idx e fs g tr Hm | i fs g tr | fs g tr];
    cbn [pc futures global trace merged deleted eventsAt] in *.
  - (* submit *)
    destruct Hinv as (Htr & [Hle Hlen] & Hg & Hfs).
    pose proof (lookup_lt_Some _ _ _ Hk) as Hlt.
    split_and!.
    + by rewrite mainEvents_app, Htr, submits_S.
    + lia.
    + rewrite length_app. simpl. lia.
    + done.
    + intros j st Hst. rewrite decide_False by lia.
      apply lookup_app_Some in Hst as [Hst|[_ Hst]].
      * specialize (Hfs j st Hst). by rewrite decide_False in Hfs by lia.
      * destruct (j - length fs); simpl in Hst; [|done].
        injection Hst as <-. by left.
  - (* the first loop is over *)
    destruct Hinv as (Htr & [Hle Hlen] & Hg & Hfs).
    split_and!; try done; try lia.
    by rewrite Htr, app_nil_r.
  - (* a worker finishes *)
    assert (Hfut : ∀ d,
      (∀ j st, fs !! j = Some st →
         if decide (j < d) then st = Consumed
         else st = Running ∨
              ∃ sfi, sfis !! j = Some sfi ∧
                     st = Finished (snd (indexSourceFile parse sfi))) →
      ∀ j' st,
        <[j := Finished (snd (indexSourceFile parse sfi))]> fs !! j' = Some st →
        if decide (j' < d) then st = Consumed
        else st = Running ∨
             ∃ sfi, sfis !! j' = Some sfi ∧
                    st = Finished (snd (indexSourceFile parse sfi))).
    { intros d Hfs j' st Hst. destruct (decide (j = j')) as [<-|Hne].
      - specialize (Hfs j Running Hj).
        rewrite list_lookup_insert_eq in Hst by (by eapply lookup_lt_Some).
        injection Hst as <-.
        destruct (decide (j < d)); [done|right; eauto].
      - rewrite list_lookup_insert_ne in Hst by done. by apply Hfs. }
    rewrite mainEvents_app, app_nil_r, length_insert.
    destruct p as [k|i|i idx|i| |e];
      cbn [pc futures global trace merged deleted eventsAt] in *;
      [destruct Hinv as (Htr & Hpos & Hg & Hfs);
       (split; [exact Htr|split; [exact Hpos|split; [exact Hg|]]]);
       by apply Hfut..|exact Hinv].
  - (* the result of task i is taken *)
    destruct Hinv as (Htr & [Hle Hlen] & Hg & Hfs).
    pose proof (lookup_lt_Some _ _ _ Hi) as Hlt.
    specialize (Hfs i _ Hi) as Hst. rewrite decide_False in Hst by lia.
    destruct Hst as [[=]|(sfi & Hsfi & [= Hres])].
    split_and!; try done; try lia.
    + by rewrite mainEvents_app, Htr, <- app_assoc.
    + eauto.
  - (* the task itself failed *)
    destruct Hinv as (Htr & [Hle Hlen] & _). rewrite Htr.
    by apply (eventsAt_prefix _ (Await i)).
  - (* merge *)
    destruct Hinv as (Htr & (Hlt & Hlen & sfi & Hsfi & Hres) & Hg & Hfs).
    split_and!; try done.
    + rewrite mainEvents_app, Htr, <- !app_assoc. done.
    + rewrite (take_S_r _ _ _ Hsfi). by eapply collectLoop_snoc.
  - (* merge failed *)
    destruct Hinv as (Htr & (Hlt & Hlen & _) & _). rewrite Htr.
    by apply (eventsAt_prefix _ (Merging i idx)).
  - (* delete *)
    destruct Hinv as (Htr & [Hlt Hlen] & Hg & Hfs).
    split_and!; try done; try lia.
    + rewrite mainEvents_app, Htr, rounds_S, <- !app_assoc. done.
    + by rewrite length_insert.
    + intros j st Hst. destruct (decide (i = j)) as [<-|Hne].
      * rewrite list_lookup_insert_eq in Hst by lia. injection Hst as <-.
        by rewrite decide_True by lia.
      * rewrite list_lookup_insert_ne in Hst by done.
        specialize (Hfs j st Hst).
        destruct (decide (j < i)); [by rewrite decide_True by lia|].
        by rewrite decide_False by lia.
  - (* the second loop is over *)
    destruct Hinv as (Htr & [Hle Hlen] & Hg & Hfs).
    split_and!; done.
Qed.

Lemma poolInv_reachable s :
  rtc (step parse sfis) (initial g0) s → poolInv parse sfis g0 s.
Proof.
  intros H. apply rtc_ind_r with (x := initial g0) (P := poolInv parse sfis g0)
    in H; [done|apply poolInv_initial|].
  intros s1 s2 _ Hstep Hinv. by eapply poolInv_step.
Qed.

End Collect.

(** The pool never gets stuck: until [readSourcesJson] has returned or
    the process is aborted, the main thread or a worker can move. *)
Lemma pool_progress parse sfis g0 s :
  rtc (step parse sfis) (initial g0) s →
  pc s = Returned ∨ (∃ e, pc s = Aborted e) ∨ ∃ s', step parse sfis s s'.
Proof.
  intros Hreach. apply poolInv_reachable in Hreach.
  destruct s as [p fs g tr]. unfold poolInv in Hreach.
  cbn [pc futures global trace] in *.
  destruct p as [k|i|i idx|i| |e]; [| | | |by left|by right; left; eexists];
    right; right; cbn [merged deleted eventsAt] in Hreach.
  - destruct Hreach as (_ & [Hle Hlen] & _).
    destruct (decide (k = length sfis)) as [->|Hne].
    + eexists. apply step_collect.
    + destruct (lookup_lt_is_Some_2 sfis k) as [sfi Hsfi]; [lia|].
      eexists. by eapply step_submit.
  - destruct Hreach as (_ & [Hle Hlen] & _ & Hfs).
    destruct (decide (i = length sfis)) as [->|Hne].
    + eexists. apply step_return.
    + destruct (lookup_lt_is_Some_2 fs i) as [st Hst]; [lia|].
      specialize (Hfs i st Hst) as Hcase.
      destruct (decide (i < i)); [lia|].
      destruct Hcase as [->|(sfi & Hsfi & ->)].
      * destruct (lookup_lt_is_Some_2 sfis i) as [sfi Hsfi]; [lia|].
        eexists. by eapply step_finish.
      * destruct (snd (indexSourceFile parse sfi)) as [idx|e] eqn:Hres.
        -- eexists. by eapply step_await.
        -- eexists. by eapply step_await_failed.
  - destruct (merge g idx) as [g'|e] eqn:Hm.
    + eexists. by eapply step_merge.
    + eexists. by eapply step_merge_failed.
  - eexists. apply step_delete.
Qed.

(** ** A run over two files *)

(** The two merges of the run over [a.c] and [c.c] into a destination
    built by [newIndex]. *)
Lemma example_merges :
  ∃ idxA idxC g1 g2,
    snd (indexSourceFile exampleParse sfiA) = Ok idxA ∧
    snd (indexSourceFile exampleParse sfiC) = Ok idxC ∧
    merge (fileIndex [] [] [] [] [] false) idxA = Ok g1 ∧
    merge g1 idxC = Ok g2.
Proof.
  destruct (indexSourceFile_mergeable exampleParse sfiA)
    as (psA & ksA & usA & rrA & lrA & roA & HA & HwfA).
  destruct (indexSourceFile_mergeable exampleParse sfiC)
    as (psC & ksC & usC & rrC & lrC & roC & HC & HwfC).
  destruct (indexdb_facts.merge_total (fileIndex [] [] [] [] [] false)
              (fileIndex psA ksA usA rrA lrA roA))
    as [g1 H1]; [reflexivity|apply closedSchema_fileIndex|done|reflexivity|].
  destruct (indexdb_facts.merge_total g1 (fileIndex psC ksC usC rrC lrC roC))
    as [g2 H2].
  - by apply indexdb_facts.merge_readonly in H1 as [_ ?].
  - eapply indexdb_facts.merge_closedSchema; [|exact H1].
    apply closedSchema_fileIndex.
  - done.
  - by rewrite (indexdb_facts.merge_schema _ _ _ H1).
  - eauto 10.
Qed.

(** A complete run over the two files, of twelve steps, in which the
    second task finishes first. *)
Lemma example_run :
  ∃ g,
    nsteps (step exampleParse [sfiA; sfiC]) 12
      (initial (fileIndex [] [] [] [] [] false))
      (mkPool Returned [Consumed; Consumed] g
         [EvSubmit 0; EvSubmit 1; EvFinish 1; EvFinish 0;
          EvAwait 0; EvMerge 0; EvDelete 0;
          EvAwait 1; EvMerge 1; EvDelete 1]).
Proof.
  destruct example_merges as (idxA & idxC & g1 & g2 & HA & HC & H1 & H2).
  exists g2.
  eapply nsteps_l; [apply (step_submit _ _ 0 sfiA); reflexivity|].
  eapply nsteps_l; [apply (step_submit _ _ 1 sfiC); reflexivity|].
  eapply nsteps_l; [apply (step_finish _ _ _ 1 sfiC); reflexivity|].
  eapply nsteps_l; [apply (step_finish _ _ _ 0 sfiA); reflexivity|].
  rewrite HA, HC.
  eapply nsteps_l; [apply (step_collect _ [sfiA; sfiC])|].
  eapply nsteps_l; [eapply (step_await _ _ 0); reflexivity|].
  eapply nsteps_l; [eapply (step_merge _ _ 0); exact H1|].
  eapply nsteps_l; [apply (step_delete _ _ 0)|].
  eapply nsteps_l; [eapply (step_await _ _ 1); reflexivity|].
  eapply nsteps_l; [eapply (step_merge _ _ 1); exact H2|].
  eapply nsteps_l; [apply (step_delete _ _ 1)|].
  eapply nsteps_l; [apply (step_return _ [sfiA; sfiC])|].
  apply nsteps_O.
Qed.

(** * The claims about the extraction *)

(** C7: the traversal started by the extraction calls the visitor on
    every cursor of the tree below the translation unit's root, in
    depth-first pre-order and without skipping any subtree; and when the
    tree has K cursors with a non-empty resolved USR, the index returned
    for the file has exactly K rows in [ref] and K rows in [loc]. *)
Theorem traversal_coverage
    (parse : string → list string → option CXTranslationUnit)
    (sfi : SourceFileInfo) (tu : CXTranslationUnit) :
  parse (path sfi) (compilerArgs sfi) = Some tu →
  let root := clang_getTranslationUnitCursor tu in
  let K := length (emitting (preorder root)) in
  (∃ belowRoot,
     preorder root = root :: belowRoot ∧
     ∀ ix log, extracting ix →
       ∃ ix', clang_visitChildren (logged visitor) root (ix, log) =
                Ok (false, (ix', log ++ belowRoot))) ∧
  ∃ idx,
    indexSourceFile parse sfi = ([], Ok idx) ∧
    length (tableRows idx "ref") = K ∧
    length (tableRows idx "loc") = K.
Proof.
  intros Hparse root K. split.
  - exists (preorderForest (cursorChildren root)).
    split; [apply preorder_unfold|].
    intros ix log Hix. eexists. by apply traversal_visits_all.
  - rewrite (indexSourceFile_success _ _ _ Hparse).
    destruct (steps_visited (preorderForest (tuTopLevel tu)) [] [] [] [] [])
      as (ps & ks & us & rr & lr & Hst & Hr & Hl & _).
    eexists. split; [reflexivity|]. rewrite Hst. simpl index.
    unfold setReadOnly. simpl.
    change (length rr = K ∧ length lr = K).
    subst K. rewrite preorder_unfold. unfold emitting in *.
    rewrite filter_cons, decide_False by (intros H; by apply H).
    simpl in Hr, Hl. done.
Qed.

Lemma traversal_coverage_witness :
  exampleParse (path sfiA) (compilerArgs sfiA) = Some tuA ∧
  ∃ idx,
    indexSourceFile exampleParse sfiA = ([], Ok idx) ∧
    length (tableRows idx "ref") = 2 ∧
    length (tableRows idx "loc") = 2.
Proof.
  split; [reflexivity|].
  exact (proj2 (traversal_coverage exampleParse sfiA tuA eq_refl)).
Defined.

(** C8: the facts the visitor emits for a cursor that refers to another
    declaration are keyed to the referenced declaration's USR and not to
    the cursor's own; for a cursor that refers to nothing they are keyed
    to the cursor's own USR. *)
Theorem referenced_usr_is_used (cursor parent : CXCursor) (ix : TUIndexer) :
  extracting ix →
  ∃ ix',
    visitor cursor parent ix = Ok (CXChildVisit_Recurse, ix') ∧
    (∀ cursorRef, clang_getCursorReferenced cursor = Some cursorRef →
                  factsUse ix ix' (cursorUSR cursorRef)) ∧
    (clang_getCursorReferenced cursor = None →
     factsUse ix ix' (cursorUSR (cursorData cursor))).
Proof.
  intros Hix.
  assert (∃ ix', visitor cursor parent ix = Ok (CXChildVisit_Recurse, ix') ∧
                 factsUse ix ix' (resolvedUSR cursor)) as (ix' & Hv & Hf).
  { unfold factsUse. destruct (decide (resolvedUSR cursor = "")) as [He|Hne].
    - exists ix. split; [|done].
      destruct Hix as (ps & ks & us & rr & lr & ->).
      rewrite visitor_extracting, decide_False; [done|]. by intros H.
    - destruct (visitor_rows cursor parent ix Hix Hne)
        as (ix' & u & f & k & Hv & _ & _ & _ & _ & _ & _ & Hemit).
      exists ix'. split; [done|]. eauto 10. }
  exists ix'. split; [done|]. unfold resolvedUSR in Hf.
  split.
  - intros cursorRef Href. by rewrite Href in Hf.
  - intros Href. by rewrite Href in Hf.
Qed.

Lemma referenced_usr_is_used_witness :
  extracting (indexerOn (fileIndex [] [] [] [] [] false)) ∧
  ∃ ix',
    visitor callF callF (indexerOn (fileIndex [] [] [] [] [] false)) =
      Ok (CXChildVisit_Recurse, ix') ∧
    factsUse (indexerOn (fileIndex [] [] [] [] [] false)) ix' "c:@F@f".
Proof.
  assert (H : extracting (indexerOn (fileIndex [] [] [] [] [] false))).
  { exists [], [], [], [], []. reflexivity. }
  split; [exact H|].
  destruct (referenced_usr_is_used callF callF _ H) as (ix' & Hv & Hr & _).
  exists ix'. split; [exact Hv|]. exact (Hr declF eq_refl).
Defined.

(** C9: for a cursor with a non-empty resolved USR the visitor emits
    exactly two facts: one row appended to [ref], with columns (usr, path,
    line, column, kind), and one row appended to [loc], with columns
    (path, line, column, usr); the USR, the file name and the kind are
    interned in the string tables [usr], [path] and [kind], the line and
    the column are stored as they are. *)
Theorem visitor_emits_two_facts (cursor parent : CXCursor) (ix : TUIndexer) :
  extracting ix →
  resolvedUSR cursor ≠ "" →
  let line := cursorLine (cursorData cursor) in
  let column := cursorColumn (cursorData cursor) in
  let file := nullToBlank (cursorFileName (cursorData cursor)) in
  let kind := nullToBlank (cursorKindSpelling (cursorData cursor)) in
  ∃ ix' usrID fileNameID kindID,
    visitor cursor parent ix = Ok (CXChildVisit_Recurse, ix') ∧
    columns <$> tables (index ix') =
      {[ "ref" := ["usr"; "path"; ""; ""; "kind"];
         "loc" := ["path"; ""; ""; "usr"] ]} ∧
    tableRows (index ix') "ref" =
      tableRows (index ix) "ref" ++ [[usrID; fileNameID; line; column; kindID]] ∧
    tableRows (index ix') "loc" =
      tableRows (index ix) "loc" ++ [[fileNameID; line; column; usrID]] ∧
    (stringTables (index ix') !! "usr") ≫= (.!! N.to_nat usrID) =
      Some (resolvedUSR cursor) ∧
    (stringTables (index ix') !! "path") ≫= (.!! N.to_nat fileNameID) =
      Some file ∧
    (stringTables (index ix') !! "kind") ≫= (.!! N.to_nat kindID) =
      Some kind ∧
    emits ix ix'
      [CStr (resolvedUSR cursor); CStr file; CRaw line; CRaw column; CStr kind]
      [CStr file; CRaw line; CRaw column; CStr (resolvedUSR cursor)].
Proof.
  intros Hix Hne line column file kind.
  destruct (visitor_rows cursor parent ix Hix Hne)
    as (ix' & u & f & k & Hv & Hix' & Hr & Hl & Hu & Hf & Hk & Hemit).
  exists ix', u, f, k. split_and!; try done.
  destruct Hix' as (ps & ks & us & rr & lr & ->). reflexivity.
Qed.

Lemma visitor_emits_two_facts_witness :
  extracting (indexerOn (fileIndex [] [] [] [] [] false)) ∧
  resolvedUSR callF ≠ "" ∧
  ∃ ix',
    visitor callF callF (indexerOn (fileIndex [] [] [] [] [] false)) =
      Ok (CXChildVisit_Recurse, ix') ∧
    emits (indexerOn (fileIndex [] [] [] [] [] false)) ix'
      [CStr "c:@F@f"; CStr "a.c"; CRaw 2; CRaw 3; CStr "CallExpr"]
      [CStr "a.c"; CRaw 2; CRaw 3; CStr "c:@F@f"].
Proof.
  assert (H : extracting (indexerOn (fileIndex [] [] [] [] [] false))).
  { exists [], [], [], [], []. reflexivity. }
  assert (Hne : resolvedUSR callF ≠ "") by discriminate.
  split; [exact H|]. split; [exact Hne|].
  destruct (visitor_emits_two_facts callF callF _ H Hne)
    as (ix' & u & f & k & Hv & _ & _ & _ & _ & _ & _ & Hemit).
  exists ix'. split; [exact Hv|exact Hemit].
Defined.

(** C10: in the index returned for a file the tables [ref] and [loc] have
    the same number of rows, and the i-th row (usr, path, line, column,
    kind) of [ref] and the i-th row (path, line, column, usr) of [loc]
    hold the same USR ID, the same path ID, the same line and the same
    column. *)
Theorem ref_loc_aligned
    (parse : string → list string → option CXTranslationUnit)
    (sfi : SourceFileInfo) :
  ∃ idx,
    snd (indexSourceFile parse sfi) = Ok idx ∧
    length (tableRows idx "ref") = length (tableRows idx "loc") ∧
    ∀ i refRow locRow,
      tableRows idx "ref" !! i = Some refRow →
      tableRows idx "loc" !! i = Some locRow →
      ∃ usrID fileNameID line column kindID,
        refRow = [usrID; fileNameID; line; column; kindID] ∧
        locRow = [fileNameID; line; column; usrID].
Proof.
  destruct (indexSourceFile_fileIndex parse sfi)
    as (ps & ks & us & rr & lr & ro & -> & Hal).
  eexists. split; [reflexivity|].
  rewrite tableRows_ref, tableRows_loc. split.
  - by eapply Forall2_length.
  - intros i refRow locRow Hr Hl.
    exact (Forall2_lookup_lr _ _ _ _ _ _ Hal Hr Hl).
Qed.

(** * The claim about the merge engine *)

Lemma mergeAll_from_noRows dst srcs d name tup :
  noRows dst →
  mergeAll dst srcs = Ok d →
  Fact d name tup ↔
    is_Some (tables dst !! name) ∧ ∃ src, src ∈ srcs ∧ Fact src name tup.
Proof.
  intros Hno H.
  rewrite (indexdb_facts.mergeAll_facts srcs dst d name tup
             (indexdb_facts.noRows_rowsResolve _ Hno) H).
  pose proof (indexdb_facts.noRows_no_fact dst name tup Hno). tauto.
Qed.

(** C4: when sources are merged one by one into a destination of their
    schema that has no rows yet, the merges succeed and the logical
    content of the result
    (every row read back through its string tables, as a set of tuples per
    table) is determined by the multiset of the logical contents of the
    sources: two sequences with the same multiset, in particular the same
    sources in another order, give the same facts. *)
Theorem merge_order_independent (dst : Index) (srcs1 srcs2 : list Index) :
  readonly dst = false →
  closedSchema dst →
  noRows dst →
  Forall (λ src, rowsResolve src ∧ schema src = schema dst) srcs1 →
  Forall (λ src, rowsResolve src ∧ schema src = schema dst) srcs2 →
  sameContents srcs1 srcs2 →
  ∃ d1 d2,
    mergeAll dst srcs1 = Ok d1 ∧
    mergeAll dst srcs2 = Ok d2 ∧
    sameFacts d1 d2.
Proof.
  intros Hro Hclosed Hno H1 H2 Hsame.
  destruct (indexdb_facts.mergeAll_total srcs1 dst Hro Hclosed H1) as [d1 Hd1].
  destruct (indexdb_facts.mergeAll_total srcs2 dst Hro Hclosed H2) as [d2 Hd2].
  exists d1, d2. split_and!; [done|done|].
  intros name tup.
  rewrite (mergeAll_from_noRows _ _ _ name tup Hno Hd1).
  rewrite (mergeAll_from_noRows _ _ _ name tup Hno Hd2).
  by rewrite (indexdb_facts.sameContents_facts srcs1 srcs2 name tup Hsame).
Qed.

Lemma merge_order_independent_witness :
  ∃ d1 d2,
    mergeAll (fileIndex [] [] [] [] [] false) [indexA; indexC] = Ok d1 ∧
    mergeAll (fileIndex [] [] [] [] [] false) [indexC; indexA] = Ok d2 ∧
    sameFacts d1 d2.
Proof.
  assert (HA : rowsResolve indexA).
  { apply rowsResolve_fileIndex.
    split; (constructor; [by eexists|constructor]). }
  assert (HC : rowsResolve indexC).
  { apply rowsResolve_fileIndex.
    split; (constructor; [by eexists|constructor]). }
  apply (merge_order_independent
           (fileIndex [] [] [] [] [] false) [indexA; indexC] [indexC; indexA]).
  - reflexivity.
  - apply closedSchema_fileIndex.
  - apply fileIndex_tables. done.
  - repeat constructor; done.
  - repeat constructor; done.
  - exists [indexA; indexC]. split; [apply perm_swap|].
    repeat constructor; done.
Defined.

(** The raw IDs do depend on the order: merged first, [indexA] keeps the
    ID 0 for its USR; merged second it gets the ID 1. *)
Lemma merge_raw_ids_depend_on_order :
  (d ← mergeAll (fileIndex [] [] [] [] [] false) [indexA; indexC];
   Ok (tableRows d "loc")) = Ok [[0; 1; 6; 0]%N; [1; 1; 5; 1]%N] ∧
  (d ← mergeAll (fileIndex [] [] [] [] [] false) [indexC; indexA];
   Ok (tableRows d "loc")) = Ok [[0; 1; 5; 0]%N; [1; 1; 6; 1]%N].
Proof. split; vm_compute; reflexivity. Qed.

(** * The claims about the pipeline *)

(** C1: the run on a descriptor that lists no file.  The process exits
    with code 0 and saves an index, but the saved index has an empty
    schema: none of the string tables [path], [kind], [usr] and none of
    the tables [ref], [loc] that [newIndex] registers. *)
Theorem main_saves_index_without_tables :
  let o := main exampleParse (λ _, Some (JArray [])) in
  exitCode o = Some 0%Z ∧
  ∃ idx,
    saved o = Some ("index", idx) ∧
    readonly idx = true ∧
    schema idx = (∅, ∅) ∧
    schema idx ≠ fileSchema ∧
    stringTables idx !! "path" = None ∧
    stringTables idx !! "kind" = None ∧
    stringTables idx !! "usr" = None ∧
    tables idx !! "ref" = None ∧
    tables idx !! "loc" = None.
Proof.
  cbv zeta.
  rewrite (main_outcome exampleParse (λ _, Some (JArray []))).
  split; [reflexivity|].
  exists (setReadOnly emptyIndex). split; [reflexivity|].
  split_and!; try reflexivity.
  intros H. by apply fileSchema_not_empty.
Qed.

(** C2, as the code has it: when the descriptor cannot be read, or its
    root value is neither an array nor an object, no task is dispatched,
    nothing is written to either stream, and the process saves the global
    index, which has no facts, and exits with code 0. *)
Theorem unusable_descriptor_saves_empty_index
    (parse : string → list string → option CXTranslationUnit)
    (readFile : string → option Json) :
  unusable (readFile "btrace.sources") →
  main parse readFile =
  {| exitCode := Some 0%Z;
     saved := Some ("index", setReadOnly emptyIndex);
     stdout := [];
     stderr := ∅;
     dispatched := [] |}.
Proof.
  intros Hdoc. rewrite main_outcome.
  destruct (readFile "btrace.sources") as [[| | |]|]; simpl in *; done.
Qed.

Lemma unusable_descriptor_saves_empty_index_witness :
  unusable ((λ _ : string, @None Json) "btrace.sources") ∧
  main exampleParse (λ _, None) =
  {| exitCode := Some 0%Z;
     saved := Some ("index", setReadOnly emptyIndex);
     stdout := [];
     stderr := ∅;
     dispatched := [] |}.
Proof.
  split; [exact I|].
  exact (unusable_descriptor_saves_empty_index exampleParse (λ _, None) I).
Defined.

(** C2, as stated, fails: with an unreadable descriptor the run is not a
    fatal startup error; it exits with code 0, without a diagnostic, and
    writes the output file. *)
Lemma unreadable_descriptor_is_not_fatal :
  let o := main exampleParse (λ _, None) in
  exitCode o = Some 0%Z ∧
  stderr o = ∅ ∧
  saved o = Some ("index", setReadOnly emptyIndex) ∧
  ¬ fatalStartup o.
Proof.
  cbv zeta. rewrite main_outcome. simpl.
  split_and!; try reflexivity.
  intros (Hexit & _). by apply Hexit.
Qed.


(** Had the destination been built by [newIndex], as every per-file
    index is, the same three tasks would have left the facts of the first
    and the third file in it. *)
Lemma registered_destination_keeps_facts :
  (d ← snd (readSourcesJson exampleParse threeFiles
              (fileIndex [] [] [] [] [] false));
   Ok (resolvedRows d "ref", resolvedRows d "loc")) =
  Ok ([[CStr "c:@F@f"; CStr "a.c"; CRaw 1; CRaw 6; CStr "FunctionDecl"];
       [CStr "c:@F@f"; CStr "a.c"; CRaw 2; CRaw 3; CStr "CallExpr"];
       [CStr "c:@g"; CStr "c.c"; CRaw 1; CRaw 5; CStr "VarDecl"]],
      [[CStr "a.c"; CRaw 1; CRaw 6; CStr "c:@F@f"];
       [CStr "a.c"; CRaw 2; CRaw 3; CStr "c:@F@f"];
       [CStr "c.c"; CRaw 1; CRaw 5; CStr "c:@g"]]).
Proof. vm_compute. reflexivity. Qed.

(** C5: every index returned by an extraction task has the schema that
    [newIndex] registers, but the global index that [main] constructs has
    an empty schema; on a descriptor without files, where nothing is ever
    merged, it is saved as it was constructed. *)
Theorem global_index_schema_differs :
  (∀ parse sfi, ∃ idx,
     snd (indexSourceFile parse sfi) = Ok idx ∧ schema idx = fileSchema) ∧
  schema emptyIndex = (∅, ∅) ∧
  schema emptyIndex ≠ fileSchema ∧
  ∀ parse,
    saved (main parse (λ _, Some (JArray []))) =
      Some ("index", setReadOnly emptyIndex) ∧
    schema (setReadOnly emptyIndex) ≠ fileSchema.
Proof.
  split_and!.
  - intros parse sfi.
    destruct (indexSourceFile_fileIndex parse sfi)
      as (ps & ks & us & rr & lr & ro & -> & _).
    eexists. split; [reflexivity|]. apply schema_fileIndex.
  - apply schema_emptyIndex.
  - rewrite schema_emptyIndex. intros H. by apply fileSchema_not_empty.
  - intros parse. rewrite main_outcome. split; [reflexivity|].
    intros H. apply fileSchema_not_empty. rewrite <- H. reflexivity.
Qed.

(** * The claim about the worker pool *)

(** C6: in every state that the main thread and the workers can reach,
    whatever the order in which the workers finish, the events of the main
    thread are a prefix of the schedule: all submissions, then for each
    task in submission order its await, its merge and, right after it, its
    delete, the next task being awaited only then.  The global index is
    the one obtained by merging, in descriptor order, the task indexes
    consumed so far, and these are exactly the deleted ones. *)
Theorem results_consumed_in_submission_order
    (parse : string → list string → option CXTranslationUnit)
    (sfis : list SourceFileInfo) (g0 : Index) (s : Pool) :
  rtc (step parse sfis) (initial g0) s →
  let n := length sfis in
  mainEvents (trace s) `prefix_of` schedule n ∧
  (running (pc s) →
   mainEvents (trace s) = eventsAt n (pc s) ∧
   snd (collectLoop parse (take (merged n (pc s)) sfis) g0) = Ok (global s) ∧
   ∀ j st, futures s !! j = Some st →
           (st = Consumed ↔ j < deleted n (pc s))) ∧
  (pc s = Returned →
   mainEvents (trace s) = schedule n ∧
   collectLoop parse sfis g0 = (map path sfis, Ok (global s))).
Proof.
  intros Hreach n. apply poolInv_reachable in Hreach.
  destruct s as [p fs g tr]. unfold poolInv in Hreach.
  cbn [pc futures global trace] in *. fold n in Hreach.
  assert (Hcons : ∀ d,
    (∀ j st, fs !! j = Some st →
       if decide (j < d) then st = Consumed
       else st = Running ∨
            ∃ sfi, sfis !! j = Some sfi ∧
                   st = Finished (snd (indexSourceFile parse sfi))) →
    ∀ j st, fs !! j = Some st → (st = Consumed ↔ j < d)).
  { intros d Hfs j st Hst. specialize (Hfs j st Hst).
    destruct (decide (j < d)); [done|].
    split; [|lia]. intros ->. by destruct Hfs as [?|(? & _ & ?)]. }
  destruct p as [k|i|i idx|i| |e]; cbn [running] in *;
    try (destruct Hreach as (Htr & Hpos & Hg & Hfs);
         split_and!;
         [rewrite Htr; apply eventsAt_prefix; tauto
         |intros _; split_and!; [done|done|by apply Hcons]
         |try done]).
  - intros _. split; [done|]. cbn [merged] in Hg.
    rewrite take_ge in Hg by (subst n; lia).
    by apply collectLoop_stdout.
  - split_and!; [done|done|done].
Qed.

Lemma results_consumed_in_submission_order_witness :
  ∃ g,
    let s := mkPool Returned [Consumed; Consumed] g
               [EvSubmit 0; EvSubmit 1; EvFinish 1; EvFinish 0;
                EvAwait 0; EvMerge 0; EvDelete 0;
                EvAwait 1; EvMerge 1; EvDelete 1] in
    rtc (step exampleParse [sfiA; sfiC])
        (initial (fileIndex [] [] [] [] [] false)) s ∧
    mainEvents (trace s) =
      [EvSubmit 0; EvSubmit 1;
       EvAwait 0; EvMerge 0; EvDelete 0;
       EvAwait 1; EvMerge 1; EvDelete 1] ∧
    collectLoop exampleParse [sfiA; sfiC] (fileIndex [] [] [] [] [] false) =
      (["a.c"; "c.c"], Ok g).
Proof.
  destruct example_run as [g Hrun]. exists g. cbv zeta.
  apply rtc_nsteps_2 in Hrun. split; [exact Hrun|].
  exact (proj2 (proj2 (results_consumed_in_submission_order
                         exampleParse [sfiA; sfiC]
                         (fileIndex [] [] [] [] [] false) _ Hrun))
               eq_refl).
Defined.

(** * Further properties of the extraction *)

Lemma resolvedRows_ref ps ks us rr lr ro :
  resolvedRows (fileIndex ps ks us rr lr ro) "ref" =
  omap (resolveRow (fileIndex ps ks us rr lr ro) refColumns) rr.
Proof. reflexivity. Qed.

Lemma resolvedRows_loc ps ks us rr lr ro :
  resolvedRows (fileIndex ps ks us rr lr ro) "loc" =
  omap (resolveRow (fileIndex ps ks us rr lr ro) locColumns) lr.
Proof. reflexivity. Qed.

Lemma internString_NoDup s strs : NoDup strs → NoDup (internString s strs).2.
Proof.
  pose proof (surjective_pairing (internString s strs)) as H.
  by apply indexdb_facts.internString_spec in H as (_ & _ & ? & _).
Qed.

Lemma internString_elem s strs x :
  x ∈ (internString s strs).2 ↔ x ∈ strs ∨ x = s.
Proof.
  pose proof (surjective_pairing (internString s strs)) as H.
  by apply indexdb_facts.internString_spec in H as (_ & _ & _ & ?).
Qed.

(** What a visit of a cursor with a USR does to the resolved rows. *)
Lemma visit_resolvedRows c ps ks us rr lr :
  rowsResolve (fileIndex ps ks us rr lr false) →
  let u := internString (resolvedUSR c) us in
  let f := internString (cursorFile c) ps in
  let k := internString (cursorKind c) ks in
  let idx' :=
    fileIndex f.2 k.2 u.2
      (rr ++ [[u.1; f.1; cursorLine (cursorData c);
               cursorColumn (cursorData c); k.1]])
      (lr ++ [[f.1; cursorLine (cursorData c);
               cursorColumn (cursorData c); u.1]]) false in
  rowsResolve idx' ∧
  resolvedRows idx' "ref" =
    resolvedRows (fileIndex ps ks us rr lr false) "ref" ++ [refFact c] ∧
  resolvedRows idx' "loc" =
    resolvedRows (fileIndex ps ks us rr lr false) "loc" ++ [locFact c].
Proof.
  intros Hwf u f k idx'. subst idx'.
  apply rowsResolve_fileIndex in Hwf as [Href Hloc].
  match goal with
  | |- rowsResolve ?T ∧ _ => set (idx' := T)
  end.
  assert (Hext : extends (stringTables (fileIndex ps ks us rr lr false))
                         (stringTables idx')).
  { apply extends_fileIndex; apply internString_prefix. }
  pose proof (indexdb_facts.omap_resolve_extends _ _ _ _ Hext Href)
    as [Hr1 Hr2].
  pose proof (indexdb_facts.omap_resolve_extends _ _ _ _ Hext Hloc)
    as [Hl1 Hl2].
  assert (Hnew : resolveRow idx' refColumns
                   [u.1; f.1; cursorLine (cursorData c);
                    cursorColumn (cursorData c); k.1] = Some (refFact c)).
  { apply resolve_refRow; apply interned. }
  assert (Hnew' : resolveRow idx' locColumns
                    [f.1; cursorLine (cursorData c);
                     cursorColumn (cursorData c); u.1] = Some (locFact c)).
  { apply resolve_locRow; apply interned. }
  assert (Hone : omap (resolveRow idx' refColumns)
                   [[u.1; f.1; cursorLine (cursorData c);
                     cursorColumn (cursorData c); k.1]] = [refFact c]).
  { cbn [omap list_omap]. by rewrite Hnew. }
  assert (Hone' : omap (resolveRow idx' locColumns)
                    [[f.1; cursorLine (cursorData c);
                      cursorColumn (cursorData c); u.1]] = [locFact c]).
  { cbn [omap list_omap]. by rewrite Hnew'. }
  split_and!.
  - apply rowsResolve_fileIndex. split; apply Forall_app; split; try done.
    + constructor; [exact (mk_is_Some _ _ Hnew)|constructor].
    + constructor; [exact (mk_is_Some _ _ Hnew')|constructor].
  - transitivity (omap (resolveRow idx' refColumns) rr ++
                  omap (resolveRow idx' refColumns)
                    [[u.1; f.1; cursorLine (cursorData c);
                      cursorColumn (cursorData c); k.1]]).
    + rewrite <- omap_app. reflexivity.
    + rewrite Hr1, Hone. reflexivity.
  - transitivity (omap (resolveRow idx' locColumns) lr ++
                  omap (resolveRow idx' locColumns)
                    [[f.1; cursorLine (cursorData c);
                      cursorColumn (cursorData c); u.1]]).
    + rewrite <- omap_app. reflexivity.
    + rewrite Hl1, Hone'. reflexivity.
Qed.

(** The contents of the index after a sequence of visits: the string
    tables hold, without repetition, the strings they held and those of the
    cursors with a USR; the resolved rows are those there were, followed by
    the facts of these cursors in the order of the visits. *)
Lemma steps_visited_contents cs : ∀ ps ks us rr lr,
  rowsResolve (fileIndex ps ks us rr lr false) →
  NoDup ps → NoDup ks → NoDup us →
  ∃ ps' ks' us' rr' lr',
    steps visited (indexerOn (fileIndex ps ks us rr lr false)) cs =
      indexerOn (fileIndex ps' ks' us' rr' lr' false) ∧
    rowsResolve (fileIndex ps' ks' us' rr' lr' false) ∧
    (NoDup ps' ∧ NoDup ks' ∧ NoDup us') ∧
    (∀ s, s ∈ us' ↔ s ∈ us ∨ s ∈ map resolvedUSR (emitting cs)) ∧
    (∀ s, s ∈ ps' ↔ s ∈ ps ∨ s ∈ map cursorFile (emitting cs)) ∧
    (∀ s, s ∈ ks' ↔ s ∈ ks ∨ s ∈ map cursorKind (emitting cs)) ∧
    resolvedRows (fileIndex ps' ks' us' rr' lr' false) "ref" =
      resolvedRows (fileIndex ps ks us rr lr false) "ref" ++
      map refFact (emitting cs) ∧
    resolvedRows (fileIndex ps' ks' us' rr' lr' false) "loc" =
      resolvedRows (fileIndex ps ks us rr lr false) "loc" ++
      map locFact (emitting cs).
Proof.
  induction cs as [|c cs IH]; intros ps ks us rr lr Hwf Hps Hks Hus.
  - exists ps, ks, us, rr, lr. simpl.
    split_and!; try done; try (by rewrite app_nil_r);
      intros s; rewrite elem_of_nil; tauto.
  - unfold steps. simpl. unfold visited at 2. rewrite visitor_extracting.
    unfold emitting. rewrite filter_cons.
    destruct (decide (resolvedUSR c ≠ "")) as [Hne|He].
    + destruct (visit_resolvedRows c ps ks us rr lr Hwf) as (Hwf' & Hr & Hl).
      match goal with
      | |- context [indexerOn (fileIndex ?p ?k ?u ?r ?l false)] =>
          destruct (IH p k u r l Hwf'
                      (internString_NoDup _ _ Hps)
                      (internString_NoDup _ _ Hks)
                      (internString_NoDup _ _ Hus))
            as (ps' & ks' & us' & rr' & lr' & Hst & Hwf'' & (Hn1 & Hn2 & Hn3)
                & Hu & Hp & Hk & Hr' & Hl')
      end.
      exists ps', ks', us', rr', lr'. unfold steps in Hst.
      split_and!; try done.
      * intros s. rewrite Hu, internString_elem. simpl.
        rewrite elem_of_cons. unfold emitting. tauto.
      * intros s. rewrite Hp. unfold cursorFile at 1.
        rewrite internString_elem. simpl.
        rewrite elem_of_cons. unfold emitting, cursorFile. tauto.
      * intros s. rewrite Hk. unfold cursorKind at 1.
        rewrite internString_elem. simpl.
        rewrite elem_of_cons. unfold emitting, cursorKind. tauto.
      * rewrite Hr'. unfold cursorFile, cursorKind in Hr. rewrite Hr.
        by rewrite <- app_assoc.
      * rewrite Hl'. unfold cursorFile, cursorKind in Hl. rewrite Hl.
        by rewrite <- app_assoc.
    + destruct (IH ps ks us rr lr Hwf Hps Hks Hus)
        as (ps' & ks' & us' & rr' & lr' & Hst & Hrest).
      exists ps', ks', us', rr', lr'. split; [exact Hst|exact Hrest].
Qed.

(** The resolved rows do not depend on the read-only flag. *)
Lemma resolveRow_strings a b cols : ∀ row,
  stringTables a = stringTables b →
  resolveRow a cols row = resolveRow b cols row.
Proof.
  intros row Heq. revert row.
  induction cols as [|c cols IH]; intros [|v row]; simpl; try done.
  unfold resolveCell. by rewrite Heq, IH.
Qed.

Lemma resolvedRows_strings a b name :
  stringTables a = stringTables b → tables a = tables b →
  resolvedRows a name = resolvedRows b name.
Proof.
  intros Hs Ht. unfold resolvedRows. rewrite Ht.
  destruct (tables b !! name) as [t|]; [|done].
  induction (rows t) as [|row rws IH]; [done|].
  cbn [omap list_omap]. rewrite (resolveRow_strings a b _ row Hs).
  destruct (resolveRow b (columns t) row); [f_equal|]; exact IH.
Qed.

Lemma stringsOf_fileIndex ps ks us rr lr ro :
  stringsOf (fileIndex ps ks us rr lr ro) "path" = ps ∧
  stringsOf (fileIndex ps ks us rr lr ro) "kind" = ks ∧
  stringsOf (fileIndex ps ks us rr lr ro) "usr" = us.
Proof. split_and!; reflexivity. Qed.

Lemma length_omap_total {A B} (f : A → option B) (l : list A) :
  Forall (λ a, is_Some (f a)) l → length (omap f l) = length l.
Proof.
  induction 1 as [|a l [b Hb] _ IH]; [done|].
  cbn [omap list_omap]. rewrite Hb. simpl. f_equal. exact IH.
Qed.

Lemma emitting_usr c cs : c ∈ emitting cs → resolvedUSR c ≠ "".
Proof. unfold emitting. by intros [? _]%list_elem_of_filter. Qed.

Section Extraction.

Variable parse : string → list string → option CXTranslationUnit.

(** What a task returns, by the contents of the file. *)
Lemma indexSourceFile_contents sfi :
  ∃ ps ks us rr lr,
    indexSourceFile parse sfi =
      (if failsToParse parse sfi then [parseError sfi] else [],
       Ok (fileIndex ps ks us rr lr (negb (failsToParse parse sfi)))) ∧
    (failsToParse parse sfi = true →
     ps = [] ∧ ks = [] ∧ us = [] ∧ rr = [] ∧ lr = []) ∧
    rowsResolve (fileIndex ps ks us rr lr false) ∧
    (NoDup ps ∧ NoDup ks ∧ NoDup us) ∧
    (∀ s, s ∈ us ↔ s ∈ map resolvedUSR (fileCursors parse sfi)) ∧
    (∀ s, s ∈ ps ↔ s ∈ map cursorFile (fileCursors parse sfi)) ∧
    (∀ s, s ∈ ks ↔ s ∈ map cursorKind (fileCursors parse sfi)) ∧
    resolvedRows (fileIndex ps ks us rr lr false) "ref" =
      map refFact (fileCursors parse sfi) ∧
    resolvedRows (fileIndex ps ks us rr lr false) "loc" =
      map locFact (fileCursors parse sfi).
Proof.
  assert (H0 : rowsResolve (fileIndex [] [] [] [] [] false)).
  { apply rowsResolve_fileIndex. split; constructor. }
  unfold failsToParse, fileCursors.
  destruct (parse (path sfi) (compilerArgs sfi)) as [tu|] eqn:Hparse.
  - rewrite (indexSourceFile_success _ _ _ Hparse).
    destruct (steps_visited_contents (preorderForest (tuTopLevel tu))
                [] [] [] [] [] H0 (NoDup_nil_2) (NoDup_nil_2) (NoDup_nil_2))
      as (ps & ks & us & rr & lr & Hst & Hwf & (Hn1 & Hn2 & Hn3)
          & Hu & Hp & Hk & Hr & Hl).
    exists ps, ks, us, rr, lr. rewrite Hst.
    split_and!; [done|done|done|done|done|done|..].
    + intros s. rewrite Hu, elem_of_nil. tauto.
    + intros s. rewrite Hp, elem_of_nil. tauto.
    + intros s. rewrite Hk, elem_of_nil. tauto.
    + rewrite Hr. reflexivity.
    + rewrite Hl. reflexivity.
  - rewrite (indexSourceFile_failure _ _ Hparse).
    exists [], [], [], [], []. simpl.
    split_and!; try done; try apply NoDup_nil_2.
Qed.

End Extraction.


(** X2: the rows of the index returned for a file, read through its
    string tables, are exactly the facts of the cursors with a non-empty
    resolved USR, in the order of the traversal: (USR, file, line, column,
    kind) in [ref] and (file, line, column, USR) in [loc], a null file
    name or kind being recorded as the empty string.  No row is left
    unresolved, and a file that does not parse has no facts. *)
Theorem extraction_facts
    (parse : string → list string → option CXTranslationUnit)
    (sfi : SourceFileInfo) :
  ∃ idx,
    snd (indexSourceFile parse sfi) = Ok idx ∧
    resolvedRows idx "ref" = map refFact (fileCursors parse sfi) ∧
    resolvedRows idx "loc" = map locFact (fileCursors parse sfi) ∧
    length (tableRows idx "ref") = length (fileCursors parse sfi) ∧
    length (tableRows idx "loc") = length (fileCursors parse sfi).
Proof.
  destruct (indexSourceFile_contents parse sfi)
    as (ps & ks & us & rr & lr & -> & _ & Hwf & _ & _ & _ & _ & Hr & Hl).
  eexists. split; [reflexivity|].
  set (ro := negb (failsToParse parse sfi)).
  rewrite (resolvedRows_strings (fileIndex ps ks us rr lr ro)
             (fileIndex ps ks us rr lr false) "ref" eq_refl eq_refl).
  rewrite (resolvedRows_strings (fileIndex ps ks us rr lr ro)
             (fileIndex ps ks us rr lr false) "loc" eq_refl eq_refl).
  split_and!; [done|done|..].
  - rewrite tableRows_ref. rewrite resolvedRows_ref in Hr.
    apply rowsResolve_fileIndex in Hwf as [Href _].
    apply (f_equal length) in Hr. rewrite length_map in Hr. rewrite <- Hr.
    symmetry. by apply length_omap_total.
  - rewrite tableRows_loc. rewrite resolvedRows_loc in Hl.
    apply rowsResolve_fileIndex in Hwf as [_ Hloc].
    apply (f_equal length) in Hl. rewrite length_map in Hl. rewrite <- Hl.
    symmetry. by apply length_omap_total.
Qed.

(** X3: in the index returned for a file no string is stored twice, and
    the string tables [usr], [path] and [kind] hold exactly the resolved
    USRs, the file names and the kinds of the cursors that facts were
    emitted for; in particular the empty string is never a USR. *)
Theorem extraction_string_tables
    (parse : string → list string → option CXTranslationUnit)
    (sfi : SourceFileInfo) :
  ∃ idx,
    snd (indexSourceFile parse sfi) = Ok idx ∧
    NoDup (stringsOf idx "usr") ∧
    NoDup (stringsOf idx "path") ∧
    NoDup (stringsOf idx "kind") ∧
    (∀ s, s ∈ stringsOf idx "usr" ↔
          ∃ c, c ∈ fileCursors parse sfi ∧ resolvedUSR c = s) ∧
    (∀ s, s ∈ stringsOf idx "path" ↔
          ∃ c, c ∈ fileCursors parse sfi ∧ cursorFile c = s) ∧
    (∀ s, s ∈ stringsOf idx "kind" ↔
          ∃ c, c ∈ fileCursors parse sfi ∧ cursorKind c = s) ∧
    "" ∉ stringsOf idx "usr".
Proof.
  destruct (indexSourceFile_contents parse sfi)
    as (ps & ks & us & rr & lr & -> & _ & _ & (Hn1 & Hn2 & Hn3)
        & Hu & Hp & Hk & _).
  eexists. split; [reflexivity|].
  destruct (stringsOf_fileIndex ps ks us rr lr
              (negb (failsToParse parse sfi))) as (-> & -> & ->).
  assert (Hmem : ∀ (f : CXCursor → string) s,
            s ∈ map f (fileCursors parse sfi) ↔
            ∃ c, c ∈ fileCursors parse sfi ∧ f c = s).
  { intros f s. change (map f ?l) with (f <$> l).
    rewrite list_elem_of_fmap. split; intros (c & H1 & H2); eauto. }
  split_and!; try done.
  - intros s. by rewrite Hu, Hmem.
  - intros s. by rewrite Hp, Hmem.
  - intros s. by rewrite Hk, Hmem.
  - rewrite Hu, Hmem. intros (c & Hc & He).
    unfold fileCursors in Hc.
    destruct (parse (path sfi) (compilerArgs sfi)); [|by apply elem_of_nil in Hc].
    by apply emitting_usr in Hc.
Qed.

(** X4: a cursor that refers to a declaration without a USR yields no
    fact, even when the cursor has a USR of its own: the visitor leaves
    the indexer as it is and asks to recurse. *)
Theorem empty_referenced_usr_suppresses_facts
    (cursor parent : CXCursor) (ix : TUIndexer) (cursorRef : CursorData) :
  clang_getCursorReferenced cursor = Some cursorRef →
  cursorUSR cursorRef = "" →
  visitor cursor parent ix = Ok (CXChildVisit_Recurse, ix).
Proof.
  intros Href Husr. unfold visitor, resolvedUSR. rewrite Href, Husr.
  by rewrite decide_False by (intros H; by apply H).
Qed.

Lemma empty_referenced_usr_suppresses_facts_witness :
  cursorUSR (cursorData refToUnnamed) ≠ "" ∧
  visitor refToUnnamed refToUnnamed
    (indexerOn (fileIndex [] [] [] [] [] false)) =
    Ok (CXChildVisit_Recurse, indexerOn (fileIndex [] [] [] [] [] false)).
Proof.
  split; [discriminate|].
  exact (empty_referenced_usr_suppresses_facts refToUnnamed refToUnnamed
           (indexerOn (fileIndex [] [] [] [] [] false)) unnamedDecl
           eq_refl eq_refl).
Defined.

(** * Further properties of the descriptor reader *)

Lemma jsonMember_head key value members :
  jsonMember (JObject ((key, value) :: members)) key = Ok value.
Proof. unfold jsonMember. simpl. by rewrite decide_True. Qed.

Lemma jsonMember_tail key key' value members :
  key' ≠ key →
  jsonMember (JObject ((key', value) :: members)) key =
  jsonMember (JObject members) key.
Proof.
  intros Hne. unfold jsonMember. simpl. rewrite decide_False by done.
  by destruct (list_find (λ kv, kv.1 = key) members) as [[i [k v]]|].
Qed.

Lemma jsonMember_absent key members :
  key ∉ members.*1 → jsonMember (JObject members) key = Ok JNull.
Proof.
  intros Hnot. unfold jsonMember.
  destruct (list_find (λ kv, kv.1 = key) members) as [[i [k v]]|] eqn:Hfind;
    [|done].
  apply list_find_Some in Hfind as (Hi & Hk & _). simpl in Hk. subst k.
  exfalso. apply Hnot. apply list_elem_of_fmap. exists (key, v).
  split; [done|]. by eapply list_elem_of_lookup_2.
Qed.

Lemma readJsonStringList_strings l :
  readJsonStringList (JArray (map JString l)) = Ok l.
Proof.
  unfold readJsonStringList. simpl.
  induction l as [|s l IH]; [done|]. simpl. by rewrite IH.
Qed.

(** X5: a descriptor element that spells out the path and the three lists
    of a record is read back as that record. *)
Theorem readSourceFileInfo_recordJson (sfi : SourceFileInfo) :
  readSourceFileInfo (recordJson sfi) = Ok sfi.
Proof.
  destruct sfi as [p ds incs es]. unfold readSourceFileInfo, recordJson.
  cbn [path defines includes extraArgs].
  rewrite (jsonMember_head "file"). cbn [mbind Result_bind asString].
  rewrite (jsonMember_tail "defines") by done.
  rewrite (jsonMember_head "defines").
  cbn [mbind Result_bind]. rewrite readJsonStringList_strings.
  cbn [mbind Result_bind].
  rewrite !(jsonMember_tail "includes") by done.
  rewrite (jsonMember_head "includes").
  cbn [mbind Result_bind]. rewrite readJsonStringList_strings.
  cbn [mbind Result_bind].
  rewrite !(jsonMember_tail "extraArgs") by done.
  rewrite (jsonMember_head "extraArgs").
  cbn [mbind Result_bind]. rewrite readJsonStringList_strings.
  reflexivity.
Qed.

(** X6: the fields of a descriptor element are optional, the path
    included.  An element without [defines], [includes] and [extraArgs]
    gives a record with three empty lists; without [file] as well, and
    likewise for a null element, it gives the record of the empty path,
    for which a task is submitted like for any other. *)
Theorem readSourceFileInfo_defaults (members : list (string * Json)) :
  "defines" ∉ members.*1 →
  "includes" ∉ members.*1 →
  "extraArgs" ∉ members.*1 →
  (∀ p, readSourceFileInfo (JObject (("file", JString p) :: members)) =
        Ok (mkSourceFileInfo p [] [] [])) ∧
  ("file" ∉ members.*1 →
   readSourceFileInfo (JObject members) = Ok (mkSourceFileInfo "" [] [] []) ∧
   dispatchLoop [JObject members; JNull] =
     ([mkSourceFileInfo "" [] [] []; mkSourceFileInfo "" [] [] []], Ok ())).
Proof.
  intros Hd Hi He.
  assert (Hfile : "file" ∉ members.*1 →
            readSourceFileInfo (JObject members) =
            Ok (mkSourceFileInfo "" [] [] [])).
  { intros Hf. unfold readSourceFileInfo.
    by rewrite !jsonMember_absent by done. }
  split.
  - intros p. unfold readSourceFileInfo.
    rewrite jsonMember_head. cbn [mbind Result_bind asString].
    rewrite !jsonMember_tail by done.
    by rewrite !jsonMember_absent by done.
  - intros Hf. split; [by apply Hfile|].
    simpl. by rewrite (Hfile Hf).
Qed.

Lemma readSourceFileInfo_defaults_witness :
  readSourceFileInfo (JObject [("file", JString "a.c"); ("note", JNull)]) =
    Ok (mkSourceFileInfo "a.c" [] [] []) ∧
  readSourceFileInfo (JObject [("note", JNull)]) =
    Ok (mkSourceFileInfo "" [] [] []).
Proof.
  assert (H : ∀ key, key ≠ "note" → key ∉ [("note", JNull)].*1).
  { intros key Hne [->|[]%elem_of_nil]%elem_of_cons. by apply Hne. }
  destruct (readSourceFileInfo_defaults [("note", JNull)]
              (H "defines" ltac:(discriminate))
              (H "includes" ltac:(discriminate))
              (H "extraArgs" ltac:(discriminate))) as [Hp Hnone].
  split; [exact (Hp "a.c")|].
  exact (proj1 (Hnone (H "file" ltac:(discriminate)))).
Defined.

(** * Further properties of the pipeline *)

Lemma dispatchLoop_records sfis :
  dispatchLoop (map recordJson sfis) = (sfis, Ok ()).
Proof.
  induction sfis as [|sfi sfis IH]; [done|].
  simpl. rewrite readSourceFileInfo_recordJson. by rewrite IH.
Qed.


Lemma rowsResolve_flag ps ks us rr lr ro ro' :
  rowsResolve (fileIndex ps ks us rr lr ro) →
  rowsResolve (fileIndex ps ks us rr lr ro').
Proof.
  intros [Hr Hl]%rowsResolve_fileIndex. apply rowsResolve_fileIndex.
  split; (eapply Forall_impl; [eassumption|]); intros row Hrow;
    cbv beta in *;
    by rewrite (resolveRow_strings (fileIndex ps ks us rr lr ro')
                  (fileIndex ps ks us rr lr ro) _ row eq_refl).
Qed.

(** A destination with the schema of [newIndex]. *)
Lemma registered_tables dst :
  schema dst = fileSchema →
  is_Some (tables dst !! "ref") ∧ is_Some (tables dst !! "loc").
Proof.
  intros Hschema.
  assert (Hcols : columns <$> tables dst = snd fileSchema).
  { by rewrite <- Hschema. }
  assert (Hlook : ∀ name, columns <$> tables dst !! name =
                          (snd fileSchema : gmap string (list string)) !! name).
  { intros name. by rewrite <- Hcols, lookup_fmap. }
  split.
  - specialize (Hlook "ref").
    destruct (tables dst !! "ref"); [by eexists|done].
  - specialize (Hlook "loc").
    destruct (tables dst !! "loc"); [by eexists|done].
Qed.

Section Registered.

Variable parse : string → list string → option CXTranslationUnit.

(** The second loop of [readSourcesJson] on a destination that has the
    schema of [newIndex]: no merge fails, and the facts of the files are
    appended, file after file. *)
Lemma collectLoop_registered sfis : ∀ dst,
  readonly dst = false →
  closedSchema dst →
  rowsResolve dst →
  schema dst = fileSchema →
  ∃ d,
    collectLoop parse sfis dst = (map path sfis, Ok d) ∧
    resolvedRows d "ref" =
      resolvedRows dst "ref" ++
      concat (map (λ sfi, map refFact (fileCursors parse sfi)) sfis) ∧
    resolvedRows d "loc" =
      resolvedRows dst "loc" ++
      concat (map (λ sfi, map locFact (fileCursors parse sfi)) sfis).
Proof.
  induction sfis as [|sfi sfis IH]; intros dst Hro Hclosed Hwf Hcols.
  - exists dst. simpl. by rewrite !app_nil_r.
  - destruct (indexSourceFile_contents parse sfi)
      as (ps & ks & us & rr & lr & Hidx & _ & Hsrc & _ & _ & _ & _ & Hr & Hl).
    set (ro := negb (failsToParse parse sfi)) in *.
    destruct (registered_tables dst Hcols) as ([tr Href] & [tl Hloc]).
    assert (Hschema : schema (fileIndex ps ks us rr lr ro) = schema dst).
    { by rewrite Hcols. }
    destruct (indexdb_facts.merge_total dst (fileIndex ps ks us rr lr ro)
                Hro Hclosed (rowsResolve_flag _ _ _ _ _ _ _ Hsrc) Hschema)
      as [d1 Hm].
    destruct (IH d1) as (d & Hd & Hdr & Hdl).
    + by apply indexdb_facts.merge_readonly in Hm as [_ ?].
    + exact (indexdb_facts.merge_closedSchema _ _ _ Hclosed Hm).
    + exact (indexdb_facts.merge_rowsResolve _ _ _ Hwf Hm).
    + by rewrite (indexdb_facts.merge_schema _ _ _ Hm).
    + exists d. simpl. rewrite Hidx. cbn [snd mbind Result_bind].
      rewrite Hm, Hd. split; [done|].
      rewrite Hdr, Hdl.
      rewrite !(indexdb_facts.merge_resolvedRows _ _ _ _ Hwf Hm).
      rewrite Href, Hloc.
      rewrite (resolvedRows_strings (fileIndex ps ks us rr lr ro)
                 (fileIndex ps ks us rr lr false) "ref" eq_refl eq_refl).
      rewrite (resolvedRows_strings (fileIndex ps ks us rr lr ro)
                 (fileIndex ps ks us rr lr false) "loc" eq_refl eq_refl).
      rewrite Hr, Hl, <- !app_assoc. done.
Qed.

End Registered.

(** X8: given a destination built as [newIndex] builds one,
    [readSourcesJson] on an array of records submits the records in order,
    prints their paths, and no merge fails; the rows of the destination,
    read through its string tables, are then the facts of every file that
    parsed, file after file in descriptor order and within a file in the
    order of the traversal.  A file that does not parse adds nothing and
    takes nothing away. *)
Theorem readSourcesJson_registered_destination
    (parse : string → list string → option CXTranslationUnit)
    (sfis : list SourceFileInfo) :
  ∃ dst d,
    newIndex = Ok dst ∧
    readSourcesJson parse (JArray (map recordJson sfis)) dst =
      (sfis, map path sfis, Ok d) ∧
    resolvedRows d "ref" =
      concat (map (λ sfi, map refFact (fileCursors parse sfi)) sfis) ∧
    resolvedRows d "loc" =
      concat (map (λ sfi, map locFact (fileCursors parse sfi)) sfis).
Proof.
  exists (fileIndex [] [] [] [] [] false).
  destruct (collectLoop_registered parse sfis (fileIndex [] [] [] [] [] false))
    as (d & Hd & Hr & Hl).
  - reflexivity.
  - apply closedSchema_fileIndex.
  - apply rowsResolve_fileIndex. split; constructor.
  - reflexivity.
  - exists d. split; [reflexivity|].
    unfold readSourcesJson. simpl jsonElements.
    rewrite dispatchLoop_records, Hd. done.
Qed.

(** * Further properties of the worker pool *)

Lemma countRunning_submit fs :
  countRunning (fs ++ [Running]) = S (countRunning fs).
Proof.
  unfold countRunning. rewrite List.filter_app, length_app. simpl. lia.
Qed.

Lemma countRunning_finish fs : ∀ j st,
  fs !! j = Some Running → isRunning st = false →
  S (countRunning (<[j := st]> fs)) = countRunning fs.
Proof.
  unfold countRunning.
  induction fs as [|x fs IH]; intros [|j] st Hj Hst; simpl in *; try done.
  - injection Hj as ->. simpl. by rewrite Hst.
  - destruct (isRunning x); simpl; rewrite <- (IH j st Hj Hst); done.
Qed.

Lemma countRunning_insert fs : ∀ j st,
  isRunning st = false →
  countRunning (<[j := st]> fs) ≤ countRunning fs.
Proof.
  unfold countRunning.
  induction fs as [|x fs IH]; intros [|j] st Hst; simpl; try done.
  - rewrite Hst. destruct (isRunning x); simpl; lia.
  - specialize (IH j st Hst). destruct (isRunning x); simpl; lia.
Qed.

Section PoolRuns.

Variable parse : string → list string → option CXTranslationUnit.
Variable sfis : list SourceFileInfo.
Variable g0 : Index.

(** Every step uses up one of the steps left. *)
Lemma step_stepsLeft s s' :
  poolInv parse sfis g0 s → step parse sfis s s' →
  stepsLeft (length sfis) s' < stepsLeft (length sfis) s.
Proof.
  intros Hinv Hstep. unfold poolInv in Hinv. unfold stepsLeft.
  destruct Hstep as
    [k sfi fs g tr Hk | fs g tr | p j sfi fs g tr Hj Hsfi
    | i idx fs g tr Hi | i e fs g tr Hi | i idx fs g g' tr Hm
    | i idx e fs g tr Hm | i fs g tr | fs g tr];
    cbn [pc futures global trace] in *.
  - apply lookup_lt_Some in Hk. rewrite countRunning_submit. lia.
  - lia.
  - pose proof (countRunning_finish fs j
                  (Finished (snd (indexSourceFile parse sfi))) Hj eq_refl).
    lia.
  - lia.
  - lia.
  - destruct Hinv as (_ & (Hlt & _) & _). lia.
  - destruct Hinv as (_ & (Hlt & _) & _). lia.
  - destruct Hinv as (_ & (Hlt & _) & _).
    pose proof (countRunning_insert fs i Consumed eq_refl). lia.
  - lia.
Qed.

Lemma nsteps_stepsLeft k : ∀ s,
  nsteps (step parse sfis) k (initial g0) s →
  poolInv parse sfis g0 s ∧
  k + stepsLeft (length sfis) s ≤ 5 * length sfis + 2.
Proof.
  induction k as [|k IH]; intros s Hrun.
  - inversion Hrun; subst. split; [apply poolInv_initial|].
    unfold stepsLeft, initial, countRunning. simpl. lia.
  - apply nsteps_inv_r in Hrun as (s1 & Hrun & Hstep).
    destruct (IH s1 Hrun) as [Hinv Hle].
    split; [by eapply poolInv_step|].
    pose proof (step_stepsLeft s1 s Hinv Hstep). lia.
Qed.

Lemma pool_finishes_from m : ∀ s,
  stepsLeft (length sfis) s ≤ m →
  rtc (step parse sfis) (initial g0) s →
  ∃ s', rtc (step parse sfis) s s' ∧ final s'.
Proof.
  induction m as [|m IH]; intros s Hle Hreach;
    destruct (pool_progress parse sfis g0 s Hreach)
      as [Hret|[[e Hab]|[s1 Hstep]]];
    try (exists s; split; [apply rtc_refl|unfold final; by rewrite ?Hret, ?Hab]).
  - pose proof (step_stepsLeft s s1 (poolInv_reachable _ _ _ _ Hreach) Hstep).
    lia.
  - pose proof (step_stepsLeft s s1 (poolInv_reachable _ _ _ _ Hreach) Hstep).
    destruct (IH s1) as (s' & Hrun & Hfin); [lia|by eapply rtc_r|].
    exists s'. split; [by eapply rtc_l|done].
Qed.

End PoolRuns.

(** X9: whatever the order in which the workers finish, no run of the
    pool over [n] records takes more than [5 n + 2] steps: [n]
    submissions, [n] task completions, three steps of the second loop per
    task, and the two loop exits. *)
Theorem pool_steps_bounded
    (parse : string → list string → option CXTranslationUnit)
    (sfis : list SourceFileInfo) (g0 : Index) (k : nat) (s : Pool) :
  nsteps (step parse sfis) k (initial g0) s →
  k ≤ 5 * length sfis + 2.
Proof.
  intros Hrun. destruct (nsteps_stepsLeft parse sfis g0 k s Hrun) as [_ H].
  lia.
Qed.

(** X10: the pool never gets stuck and cannot run forever: from every
    state that can be reached, [readSourcesJson] can still return, or the
    process be aborted by a failed merge, in finitely many steps. *)
Theorem pool_can_finish
    (parse : string → list string → option CXTranslationUnit)
    (sfis : list SourceFileInfo) (g0 : Index) (s : Pool) :
  rtc (step parse sfis) (initial g0) s →
  ∃ s', rtc (step parse sfis) s s' ∧ final s'.
Proof.
  intros Hreach. by eapply pool_finishes_from.
Qed.

(** X11: when [readSourcesJson] returns, every task has been submitted and
    the index of every task has been taken from its future and deleted:
    none is left running, and none is left behind. *)
Theorem returned_pool_has_consumed_all
    (parse : string → list string → option CXTranslationUnit)
    (sfis : list SourceFileInfo) (g0 : Index) (s : Pool) :
  rtc (step parse sfis) (initial g0) s →
  pc s = Returned →
  futures s = replicate (length sfis) Consumed.
Proof.
  intros Hreach Hret. apply poolInv_reachable in Hreach.
  unfold poolInv in Hreach. rewrite Hret in Hreach.
  destruct Hreach as (_ & Hlen & _ & Hfs). cbn [deleted] in Hfs.
  symmetry. apply replicate_as_Forall. split; [done|].
  apply Forall_lookup. intros j st Hst.
  specialize (Hfs j st Hst). apply lookup_lt_Some in Hst.
  by rewrite decide_True in Hfs by lia.
Qed.

Lemma pool_steps_bounded_witness :
  ∃ s,
    nsteps (step exampleParse [sfiA; sfiC]) 12
           (initial (fileIndex [] [] [] [] [] false)) s ∧
    pc s = Returned ∧
    12 ≤ 5 * length [sfiA; sfiC] + 2.
Proof.
  destruct example_run as [g Hrun].
  eexists. split; [exact Hrun|]. split; [reflexivity|].
  exact (pool_steps_bounded exampleParse [sfiA; sfiC]
           (fileIndex [] [] [] [] [] false) 12 _ Hrun).
Defined.

Lemma pool_can_finish_witness :
  ∃ s', rtc (step exampleParse [sfiA; sfiC])
            (initial (fileIndex [] [] [] [] [] false)) s' ∧
        final s'.
Proof.
  exact (pool_can_finish exampleParse [sfiA; sfiC]
           (fileIndex [] [] [] [] [] false)
           (initial (fileIndex [] [] [] [] [] false)) (rtc_refl _ _)).
Defined.

Lemma returned_pool_has_consumed_all_witness :
  ∃ s,
    rtc (step exampleParse [sfiA; sfiC])
        (initial (fileIndex [] [] [] [] [] false)) s ∧
    pc s = Returned ∧
    futures s = [Consumed; Consumed].
Proof.
  destruct example_run as [g Hrun]. apply rtc_nsteps_2 in Hrun.
  eexists. split; [exact Hrun|]. split; [reflexivity|].
  exact (returned_pool_has_consumed_all exampleParse [sfiA; sfiC]
           (fileIndex [] [] [] [] [] false) _ Hrun eq_refl).
Defined.

(** * Further properties of the run and of the interned IDs *)


Lemma omap_total_Forall2 {A B C} (f : A → option B) (g : C → B)
    (l : list A) : ∀ l' : list C,
  Forall (λ a, is_Some (f a)) l →
  omap f l = map g l' →
  Forall2 (λ a c, f a = Some (g c)) l l'.
Proof.
  induction l as [|a l IH]; intros l' Hall Heq.
  - destruct l'; [constructor|done].
  - inversion Hall as [|? ? [b Hb] Hl]; subst.
    cbn [omap list_omap] in Heq. rewrite Hb in Heq.
    destruct l' as [|c l']; [done|].
    simpl in Heq. injection Heq as -> Heq.
    constructor; [done|]. by apply IH.
Qed.

Lemma resolveRow_cons_inv idx c cols v row tup :
  resolveRow idx (c :: cols) (v :: row) = Some tup →
  ∃ x xs, resolveCell idx c v = Some x ∧
          resolveRow idx cols row = Some xs ∧ tup = x :: xs.
Proof.
  simpl. destruct (resolveCell idx c v) as [x|]; simpl; [|done].
  destruct (resolveRow idx cols row) as [xs|]; simpl; [|done].
  intros [= <-]. eauto.
Qed.

Lemma resolve_refRow_usr ps ks us rr lr ro row tup :
  resolveRow (fileIndex ps ks us rr lr ro) refColumns row = Some tup →
  ∃ u su, row !! 0 = Some u ∧ tup !! 0 = Some (CStr su) ∧
          us !! N.to_nat u = Some su.
Proof.
  destruct row as [|u row]; [done|]. unfold refColumns.
  intros (x & xs & Hx & _ & ->)%resolveRow_cons_inv.
  unfold resolveCell in Hx. rewrite decide_False in Hx by done.
  change (stringTables (fileIndex ps ks us rr lr ro) !! "usr")
    with (Some us) in Hx.
  cbn [mbind option_bind] in Hx.
  destruct (us !! N.to_nat u) as [su|] eqn:Hsu; [|done].
  injection Hx as <-. eauto.
Qed.

(** X13: within the index returned for a file, the USR ID of a reference
    row identifies the symbol: two rows hold the same ID if and only if
    their cursors resolve to the same USR. *)
Theorem usr_ids_identify_symbols
    (parse : string → list string → option CXTranslationUnit)
    (sfi : SourceFileInfo) :
  ∃ idx,
    snd (indexSourceFile parse sfi) = Ok idx ∧
    ∀ i j ci cj ri rj,
      fileCursors parse sfi !! i = Some ci →
      fileCursors parse sfi !! j = Some cj →
      tableRows idx "ref" !! i = Some ri →
      tableRows idx "ref" !! j = Some rj →
      (ri !! 0 = rj !! 0 ↔ resolvedUSR ci = resolvedUSR cj).
Proof.
  destruct (indexSourceFile_contents parse sfi)
    as (ps & ks & us & rr & lr & -> & _ & Hwf & (_ & _ & Hnd)
        & _ & _ & _ & Hr & _).
  eexists. split; [reflexivity|].
  rewrite tableRows_ref. rewrite resolvedRows_ref in Hr.
  apply rowsResolve_fileIndex in Hwf as [Href _].
  pose proof (omap_total_Forall2 _ _ _ _ Href Hr) as Hall.
  intros i j ci cj ri rj Hci Hcj Hri Hrj.
  pose proof (Forall2_lookup_lr _ _ _ _ _ _ Hall Hri Hci) as Hi.
  pose proof (Forall2_lookup_lr _ _ _ _ _ _ Hall Hrj Hcj) as Hj.
  apply resolve_refRow_usr in Hi as (ui & si & Hui & [= <-] & Hsi).
  apply resolve_refRow_usr in Hj as (uj & sj & Huj & [= <-] & Hsj).
  rewrite Hui, Huj. split.
  - intros [= ->]. congruence.
  - intros Heq. rewrite Heq in Hsi. f_equal.
    apply N2Nat.inj. by eapply NoDup_lookup.
Qed.
